(** * Council of Agents: the installer and the three shell scripts it ships

    The repository is one Python program.  Its dictionary [files] holds
    seven texts (four reviewer prompts and the scripts [ralph.sh],
    [run_gauntlet.sh] and [run_review.sh]) and [create_council_zip] writes
    them to disk and into an archive.  The scripts are modelled as Rocq
    functions over explicit worlds: the text a process prints, the report
    file as the sequence of appends made to it, the file system as a finite
    map.  The external engine [claude], [date] and the user's key press are
    parameters. *)

From Stdlib Require Import Ascii.
From stdpp Require Import base gmap strings list pretty.

(** ** Text: byte strings, substring search, lines *)

Module Text.

Definition nl : ascii := "010"%char.
Definition NL : string := String nl EmptyString.
Definition dq : string := String "034"%char EmptyString.

Fixpoint starts_with (p s : string) : bool :=
  match p, s with
  | EmptyString, _ => true
  | String _ _, EmptyString => false
  | String a p', String b s' => if decide (a = b) then starts_with p' s' else false
  end.

(** Does [m] occur somewhere in [s]: tried at every position, left to right. *)
Fixpoint contains (m s : string) : bool :=
  match s with
  | EmptyString => starts_with m EmptyString
  | String _ s' => starts_with m s || contains m s'
  end.

(** The mathematical notion the search is compared with. *)
Definition occurs_in (m s : string) : Prop :=
  exists pre post, s = pre +:+ m +:+ post.

Fixpoint has_char (c : ascii) (s : string) : bool :=
  match s with
  | EmptyString => false
  | String a s' => if decide (a = c) then true else has_char c s'
  end.

Fixpoint all_chars (f : ascii -> bool) (s : string) : bool :=
  match s with
  | EmptyString => true
  | String a s' => f a && all_chars f s'
  end.

(** The lines of a text as a line-oriented tool reads them: a final
    newline ends the last line and does not start an empty one. *)
Fixpoint lines (s : string) : list string :=
  match s with
  | EmptyString => []
  | String a s' =>
      if decide (a = nl) then EmptyString :: lines s'
      else match lines s' with
           | [] => [String a EmptyString]
           | h :: t => String a h :: t
           end
  end.

(** A text less the characters [f] holds of at its end, at its start. *)
Fixpoint rstrip (f : ascii -> bool) (s : string) : string :=
  match s with
  | EmptyString => EmptyString
  | String a s' =>
      match rstrip f s' with
      | EmptyString => if f a then EmptyString else String a EmptyString
      | r => String a r
      end
  end.

Fixpoint lstrip (f : ascii -> bool) (s : string) : string :=
  match s with
  | EmptyString => EmptyString
  | String a s' => if f a then lstrip f s' else s
  end.

Fixpoint without (c : ascii) (s : string) : string :=
  match s with
  | EmptyString => EmptyString
  | String a s' => if decide (a = c) then without c s' else String a (without c s')
  end.

(** Lines joined by newlines: a text that runs over several lines. *)
Fixpoint unlines (l : list string) : string :=
  match l with
  | [] => EmptyString
  | [s] => s
  | s :: r => s +:+ NL +:+ unlines r
  end.

Fixpoint concat (l : list string) : string :=
  match l with
  | [] => EmptyString
  | s :: r => s +:+ concat r
  end.

End Text.

(** ** The shell primitives the scripts use *)

Module Bash.
Import Text.

(** [echo ARG] with one argument.  The builtin reads a first argument
    made of [-] and one or more of [n], [e], [E] as options, not as text:
    [-n] alone prints nothing, [-e] alone prints an empty line. *)
Definition echo_flag (c : ascii) : bool :=
  if decide (c = "n"%char) then true
  else if decide (c = "e"%char) then true
  else if decide (c = "E"%char) then true
  else false.

Definition is_echo_option (arg : string) : bool :=
  match arg with
  | String "-"%char (String c r) => all_chars echo_flag (String c r)
  | _ => false
  end.

Definition echo (arg : string) : string :=
  if is_echo_option arg then
    (if has_char "n"%char arg then EmptyString else NL)
  else arg +:+ NL.

(** Characters that stand for themselves in a basic regular expression. *)
Definition bre_ordinary (c : ascii) : bool :=
  negb (has_char c "\.[*^$").

(** [grep -q PATTERN] on its standard input, for a pattern of ordinary
    characters: exit status 0 ([true]) when some line has the pattern. *)
Definition grep_q (pattern input : string) : bool :=
  existsb (contains pattern) (lines input).

(** [$(COMMAND)]: what the shell keeps of the bytes the command wrote.
    Null bytes are skipped and the newlines at the end go. *)
Definition captured (raw : string) : string :=
  rstrip (fun c => bool_decide (c = nl)) (without "000"%char raw).

(** One run of the engine: what it wrote, stream by stream in the order
    written, and its exit status. *)
Inductive stream := Stdout | Stderr.

Record outcome := Outcome {
  written : list (stream * string);
  exit_status : nat
}.

(** [$(claude ... 2>&1)]: both streams go to the one pipe, in the order
    written; the exit status is not looked at. *)
Definition merged (o : outcome) : string := concat (map snd (written o)).
Definition capture (o : outcome) : string := captured (merged o).

End Bash.

(** ** ralph.sh: the fixer loop *)

Module Ralph.
Import Text Bash.

Definition MAX_ITERATIONS : nat := 10.
Definition COMPLETION_MARKER : string := "<promise>COMPLETE</promise>".

(** [echo "$output" | grep -q "$COMPLETION_MARKER"] *)
Definition marker_found (output : string) : bool :=
  grep_q COMPLETION_MARKER (echo output).

Inductive TerminalStatus := Completed | Exhausted.

(** [exit 0] inside the loop, [exit 1] after it. *)
Definition exit_code (t : TerminalStatus) : nat :=
  match t with Completed => 0 | Exhausted => 1 end.

(** What a run leaves behind: the engine calls made (prompt and
    iteration), the text printed, the seconds slept. *)
Record world := World {
  calls : list (string * nat);
  terminal : list string;
  slept : nat
}.

Definition say (line : string) (w : world) : world :=
  World (calls w) (terminal w ++ [echo line]) (slept w).
Definition invoked (prompt : string) (i : nat) (w : world) : world :=
  World (calls w ++ [(prompt, i)]) (terminal w) (slept w).
Definition sleep (n : nat) (w : world) : world :=
  World (calls w) (terminal w) (slept w + n).

Section Loop.
(** [claude prompt i]: the engine's answer to the [i]-th call. *)
Variable claude : string -> nat -> outcome.
Variable PROMPT_CONTENT : string.

Definition output_at (i : nat) : string := capture (claude PROMPT_CONTENT i).

(** [for ((i=1; i<=MAX_ITERATIONS; i++))], one unit of fuel a test. *)
Fixpoint for_loop (max fuel i : nat) (w : world) : option (TerminalStatus * world) :=
  match fuel with
  | 0 => None
  | S fuel' =>
      if i <=? max then
        let w := say ("--- Iteration " +:+ pretty i +:+ " ---") w in
        let output := output_at i in
        let w := say output (invoked PROMPT_CONTENT i w) in
        if marker_found output then
          Some (Completed, say "âœ… Fixes applied and verified." w)
        else for_loop max fuel' (S i) (sleep 2 w)
      else Some (Exhausted, say "âŒ Max iterations reached." w)
  end.

(** The calls of iterations [i], [i+1], ... ([n] of them). *)
Definition calls_from (i n : nat) : list (string * nat) :=
  map (fun j => (PROMPT_CONTENT, j)) (seq i n).

Definition start : world := say "ðŸ”„ Starting Fixer Loop..." (World [] [] 0).

Definition run_with (max : nat) : option (TerminalStatus * world) :=
  for_loop max (S max) 1 start.

Definition ralph_sh : option (TerminalStatus * world) := run_with MAX_ITERATIONS.
End Loop.

End Ralph.

(** ** The disk: paths to directories, files and archives *)

Module Disk.

(** An entry, with its permission bits. *)
Inductive node :=
| Dir (mode : N)
| File (content : string) (mode : N)
| Zip (members : list (string * string)) (mode : N).

(** What [cat PATH] writes to its standard output; for a path that is no
    file that is nothing (its complaint goes to the terminal). *)
Definition cat (disk : gmap string node) (path : string) : string :=
  match disk !! path with
  | Some (File content _) => content
  | _ => EmptyString
  end.

End Disk.

(** ** run_gauntlet.sh: the reviewers and the report *)

Module Gauntlet.
Import Text Bash Disk.

Definition REPORT_FILE : string := "COUNCIL_REPORT.md".
Definition PROMPT_DIR : string := ".council/prompts".
Definition rule : string := "------------------------------------------------".

(** [TARGET_DIR="${1:-.}"]: the first argument, or [.] when it is unset
    or empty. *)
Definition TARGET_DIR (args : list string) : string :=
  match args with
  | a :: _ => if decide (a = EmptyString) then "." else a
  | [] => "."
  end.

Record reviewer := Reviewer { name : string; prompt_path : string }.

(** The four [run_agent NAME PATH &] lines, in the order they are launched. *)
Definition reviewers : list reviewer :=
  [ Reviewer "QA Engineer" (PROMPT_DIR +:+ "/01_test_qa.md");
    Reviewer "Architect" (PROMPT_DIR +:+ "/02_structure_architect.md");
    Reviewer "Librarian" (PROMPT_DIR +:+ "/03_naming_librarian.md");
    Reviewer "Domain Warden" (PROMPT_DIR +:+ "/04_domain_warden.md") ].

(** The report file is what was appended to it, one [echo] at a time;
    each append is kept with the process that made it: the script itself
    or the background job of the [j]-th reviewer. *)
Inductive writer := Script | Job (j : nat).

#[global] Instance writer_eq_dec : EqDecision writer.
Proof. solve_decision. Defined.

Record append := Append { who : writer; text : string }.

Definition content (report : list append) : string := concat (map text report).

(** A background job: how many of its steps it has done, and its local
    [result]. *)
Record job := JobState { pc : nat; result : string }.

Record world := World {
  report : list append;
  terminal : list string;
  jobs : list job
}.

Definition say (line : string) (w : world) : world :=
  World (report w) (terminal w ++ [echo line]) (jobs w).

(** [echo LINE >> $REPORT_FILE] *)
Definition append_line (by_ : writer) (line : string) (w : world) : world :=
  World (report w ++ [Append by_ (echo line)]) (terminal w) (jobs w).

Definition set_job (j : nat) (s : job) (w : world) : world :=
  World (report w) (terminal w) (<[j := s]> (jobs w)).

Definition heading (r : reviewer) : string := "## ðŸ•µï¸ Agent: " +:+ name r.

Section Run.
Variable disk : gmap string node.
(** [gather target]: what [find "$TARGET_DIR" ... | xargs cat] prints. *)
Variable gather : string -> string.
(** What [date] prints. *)
Variable date : string.
(** [claude prompt j]: the engine's run for the [j]-th job. *)
Variable claude : string -> nat -> outcome.
Variable rs : list reviewer.
Variable args : list string.

Definition CODE_CONTEXT : string := captured (gather (TARGET_DIR args)).

Definition full_prompt (r : reviewer) : string :=
  captured (cat disk (prompt_path r)) +:+ NL
  +:+ "    " +:+ NL
  +:+ "    <code_to_review>" +:+ NL
  +:+ "    " +:+ CODE_CONTEXT +:+ NL
  +:+ "    </code_to_review>".

(** [local result=$(claude -p "$full_prompt" --print 2>&1)] *)
Definition result_of (j : nat) (r : reviewer) : string :=
  capture (claude (full_prompt r) j).

(** The three appends that end [run_agent]. *)
Definition section_of (j : nat) (r : reviewer) (result : string) : list append :=
  [ Append (Job j) (echo (heading r));
    Append (Job j) (echo result);
    Append (Job j) (echo rule) ].

(** The section of the [j]-th job. *)
Definition section_at (j : nat) : list append :=
  match rs !! j with
  | Some r => section_of j r (result_of j r)
  | None => []
  end.

(** One step of the [j]-th [run_agent]: announce itself and get the
    engine's answer, then the three appends, then nothing. *)
Definition step (w : world) (j : nat) : world :=
  match rs !! j, jobs w !! j with
  | Some r, Some s =>
      match pc s with
      | 0 => set_job j (JobState 1 (result_of j r))
               (say ("ðŸ¤– Agent [" +:+ name r +:+ "] is analyzing...") w)
      | 1 => set_job j (JobState 2 (result s)) (append_line (Job j) (heading r) w)
      | 2 => set_job j (JobState 3 (result s)) (append_line (Job j) (result s) w)
      | 3 => set_job j (JobState 4 (result s)) (append_line (Job j) rule w)
      | _ => w
      end
  | _, _ => w
  end.

(** The four lines the script itself writes before it launches the jobs:
    [>] empties the file, [>>] appends. *)
Definition preamble : list append :=
  [ Append Script (echo "# Council of Agents Report");
    Append Script (echo ("Target: " +:+ TARGET_DIR args));
    Append Script (echo ("Date: " +:+ captured date));
    Append Script (echo rule) ].

Definition launched : world :=
  World preamble [echo "ðŸ“– Reading code context..."] (replicate (length rs) (JobState 0 EmptyString)).

Definition finished (s : job) : bool := 4 <=? pc s.

(** The jobs run in the background, their steps in the order [sched]
    lists them; [wait] returns once every job has finished.  A [sched] that
    leaves a job unfinished is no whole run of the script. *)
Definition run_gauntlet (sched : list nat) : option world :=
  let w := fold_left step sched launched in
  if forallb finished (jobs w)
  then Some (say ("ðŸ“‹ Council meeting adjourned. Report generated at " +:+ REPORT_FILE) w)
  else None.

(** What one job appended. *)
Definition appends_of (j : nat) (report : list append) : list append :=
  filter (fun a => who a = Job j) report.

Definition pc_at (w : world) (j : nat) : nat :=
  match jobs w !! j with Some s => pc s | None => 0 end.

(** What holds of the jobs and the report at every moment of a run: the
    script's own appends are the preamble, a job that has started holds the
    engine's answer to its own prompt, and what it has appended so far is
    the beginning of its own section. *)
Definition consistent (w : world) : Prop :=
  length (jobs w) = length rs
  /\ filter (fun a => who a = Script) (report w) = preamble
  /\ forall j r, rs !! j = Some r ->
       exists s, jobs w !! j = Some s
         /\ pc s <= 4
         /\ (1 <= pc s -> result s = result_of j r)
         /\ appends_of j (report w) = take (pc s - 1) (section_of j r (result_of j r)).

End Run.

Definition run_gauntlet_sh disk gather date claude args sched : option world :=
  run_gauntlet disk gather date claude reviewers args sched.

(** Schedules: every job starts and awaits the engine; then the jobs get
    their answers and write their sections one after another, in the order
    [order]. *)
Definition one_after_another (n : nat) (order : list nat) : list nat :=
  seq 0 n ++ flat_map (fun j => [j; j; j]) order.

(** The turns job [j] gets in a schedule; in a whole run every job gets
    the four it needs. *)
Definition turns (j : nat) (sched : list nat) : nat :=
  length (filter (fun i => i = j) sched).

Definition whole_run (n : nat) (sched : list nat) : Prop :=
  forall j, j < n -> 4 <= turns j sched.

(** [order] lists each of the [n] jobs once. *)
Definition completion_order (n : nat) (order : list nat) : Prop :=
  NoDup order /\ forall j, j ∈ order <-> j < n.

(** The text of the section of job [j] when [echo] takes none of its
    lines for an option. *)
Definition section_text (r : reviewer) (result : string) : string :=
  heading r +:+ NL +:+ result +:+ NL +:+ rule +:+ NL.

(** The section as the specification words it: a header line
    [## Agent: <name>], the raw output, a separator line. *)
Definition specified_section (r : reviewer) (result : string) : string :=
  "## Agent: " +:+ name r +:+ NL +:+ result +:+ NL +:+ rule +:+ NL.

(** The jobs that wrote to a report, each once, in the order of their
    first append. *)
Definition job_of (a : append) : option nat :=
  match who a with Job j => Some j | Script => None end.

Fixpoint first_seen (seen l : list nat) : list nat :=
  match l with
  | [] => []
  | j :: r =>
      if decide (j ∈ seen) then first_seen seen r
      else j :: first_seen (j :: seen) r
  end.

Definition section_order (report : list append) : list nat :=
  first_seen [] (omap job_of report).

(** The report starts with the preamble; after it come appends of jobs only. *)
Definition headed (date : string) (rs : list reviewer) (args : list string) (w : world)
  : Prop :=
  exists rest, report w = preamble date args ++ rest
    /\ Forall (fun a => exists j, who a = Job j /\ j < length rs) rest.

End Gauntlet.

(** ** run_review.sh: review, ask, fix *)

Module Review.
Import Text Bash Disk.

(** [[[ $REPLY =~ ^[Yy]$ ]]] *)
Definition accepts (REPLY : string) : bool :=
  if decide (REPLY = "y") then true
  else if decide (REPLY = "Y") then true
  else false.

Definition FIXER_PROMPT (REPORT_CONTENT : string) : string :=
  unlines [
      "I have a code review report in COUNCIL_REPORT.md:";
      EmptyString;
      "<report>";
      REPORT_CONTENT;
      "</report>";
      EmptyString;
      "Your Goal: Fix the code based on these agents' findings.";
      "Rules:";
      "1. Address the 'Domain Warden' issues first (they are hardest).";
      "2. Rename variables as requested by the 'Librarian'.";
      "3. Refactor structure as requested by the 'Architect'.";
      "4. Finally, update/add tests as requested by the 'QA Engineer'.";
      "5. After every file change, run the tests (npm test).";
      "6. If tests fail, fix them immediately.";
      EmptyString;
      "When ALL items are addressed and tests pass, output exactly: <promise>COMPLETE</promise>." ].

(** Reading a prompt for what it asks the engine to print: the text of
    its last line after [output exactly: ], less the full stop that ends
    the sentence. *)
Fixpoint last_line (s : string) : string :=
  match s with
  | EmptyString => EmptyString
  | String a r =>
      if has_char nl r then last_line r
      else if decide (a = nl) then r else String a r
  end.

Fixpoint drop_chars (n : nat) (s : string) : string :=
  match n, s with
  | S n', String _ r => drop_chars n' r
  | _, _ => s
  end.

Fixpoint after (key s : string) : option string :=
  if starts_with key s then Some (drop_chars (String.length key) s)
  else match s with
       | EmptyString => None
       | String _ r => after key r
       end.

Fixpoint chop_full_stop (s : string) : string :=
  match s with
  | EmptyString => EmptyString
  | String a r =>
      match r with
      | EmptyString => if decide (a = "."%char) then EmptyString else s
      | _ => String a (chop_full_stop r)
      end
  end.

Definition instructed_literal (prompt : string) : option string :=
  chop_full_stop <$> after "output exactly: " (last_line prompt).

(** What the script passes to [run_gauntlet.sh], whatever it was given
    itself. *)
Definition gauntlet_args (args : list string) : list string := ["./src"].

(** The prompt the fixer loop gets from a review:
    [REPORT_CONTENT=$(cat COUNCIL_REPORT.md)] put into [FIXER_PROMPT]. *)
Definition prompt_of (g : Gauntlet.world) : string :=
  FIXER_PROMPT (captured (Gauntlet.content (Gauntlet.report g))).

(** How a session ended: the exit status of the script, the review it
    ran, and the fixer loop when it ran one. *)
Record session := Session {
  final_status : nat;
  review : Gauntlet.world;
  fixer : option (Ralph.TerminalStatus * Ralph.world)
}.

Section Run.
Variable disk : gmap string node.
Variable gather : string -> string.
Variable date : string.
(** The engine as the reviewers call it and as the fixer loop calls it. *)
Variable claude_review : string -> nat -> outcome.
Variable claude_fix : string -> nat -> outcome.
(** The script's own arguments, the schedule of the review jobs and the
    key the user presses. *)
Variable args : list string.
Variable sched : list nat.
Variable REPLY : string.

Definition run_review_sh : option session :=
  match Gauntlet.run_gauntlet_sh disk gather date claude_review (gauntlet_args args) sched with
  | None => None
  | Some g =>
      if negb (accepts REPLY) then Some (Session 1 g None)
      else
        match Ralph.ralph_sh claude_fix (prompt_of g) with
        | None => None
        | Some (t, w) => Some (Session (Ralph.exit_code t) g (Some (t, w)))
        end
  end.

End Run.

End Review.

(** ** The installer: [files] and [create_council_zip] *)

Module Installer.
Import Text Disk.

(** The seven texts of the dictionary [files], line by line.  A text is
    kept as the bytes the program writes for it. *)
Definition test_qa_md : string :=
  unlines [
    "<role>";
    "You are a Senior QA Automation Engineer & SDET. You are skeptical, thorough, and obsessed with failure modes.";
    "</role>";
    EmptyString;
    "<objective>";
    "Review the provided code specifically for TEST QUALITY. Do not comment on architecture, naming, or style unless it makes testing impossible.";
    "</objective>";
    EmptyString;
    "<checklist>";
    "1. **Happy Path vs. Edge Cases:** Do tests only check the success state? Are nulls, empty arrays, and error responses tested?";
    "2. **Mocking Hygiene:** Are mocks strict? Do they verify arguments? (e.g., `verify(repo.save(any))` is bad; `verify(repo.save(specificUser))` is good).";
    "3. **Assertion Specificity:** Are assertions lazy? (e.g., `assertNotNull(response)` vs `assertEquals(200, response.status)`).";
    "4. **Setup/Teardown:** Is data leaking between tests?";
    "</checklist>";
    EmptyString;
    "<output_format>";
    "Output a Markdown list of **Missing Test Cases** and **Weak Assertions**. ";
    "If the tests are excellent, output " +:+ dq +:+ "NO ISSUES FOUND" +:+ dq +:+ ".";
    "</output_format>" ].

Definition structure_architect_md : string :=
  unlines [
    "<role>";
    "You are a Software Architect obsessed with SOLID principles, low coupling, and high cohesion.";
    "</role>";
    EmptyString;
    "<objective>";
    "Review the provided code for STRUCTURE and LOGIC FLOW. Ignore variable names and test coverage.";
    "</objective>";
    EmptyString;
    "<checklist>";
    "1. **Single Responsibility:** Does a function/class do too much?";
    "2. **DRY (Don't Repeat Yourself):** Is logic copy-pasted? Should it be extracted to a utility?";
    "3. **Complexity:** Are there deeply nested `if/else` blocks that should be guard clauses or strategy patterns?";
    "4. **Dependency Cycles:** Are modules importing each other in a circle?";
    "</checklist>";
    EmptyString;
    "<output_format>";
    "Output a Markdown list of **Refactoring Recommendations**. Focus on structural changes, not syntax.";
    "If structure is solid, output " +:+ dq +:+ "NO ISSUES FOUND" +:+ dq +:+ ".";
    "</output_format>" ].

Definition naming_librarian_md : string :=
  unlines [
    "<role>";
    "You are a Code Readability Expert and Linguist. You believe code is read 10x more than it is written.";
    "</role>";
    EmptyString;
    "<objective>";
    "Review the provided code for NAMING and READABILITY. Ignore logic errors and architecture.";
    "</objective>";
    EmptyString;
    "<checklist>";
    "1. **Intent-Revealing Names:** Does `data` become `userData`? Does `list` become `activeInventoryList`?";
    "2. **Boolean Hygiene:** Do booleans sound like questions? (`valid` -> `isValid`, `done` -> `hasCompleted`).";
    "3. **Magic Numbers/Strings:** Are there raw numbers in logic that should be named constants?";
    "4. **Consistency:** Do we mix `fetch`, `get`, and `retrieve` for the same action?";
    "</checklist>";
    EmptyString;
    "<output_format>";
    "Output a table with columns: `Current Name` | `Suggested Name` | `Reason`.";
    "If naming is perfect, output " +:+ dq +:+ "NO ISSUES FOUND" +:+ dq +:+ ".";
    "</output_format>" ].

Definition domain_warden_md : string :=
  unlines [
    "<role>";
    "You are a Domain-Driven Design (DDD) Purist. You protect the integrity of the business domain.";
    "</role>";
    EmptyString;
    "<objective>";
    "Review the provided code for DOMAIN SEPARATION and LEAKY ABSTRACTIONS.";
    "</objective>";
    EmptyString;
    "<checklist>";
    "1. **Leaky Abstractions:** Does the Controller know about SQL implementation details? Does the View know about Business Rules?";
    "2. **DTO Usage:** Are we passing raw database entities to the client?";
    "3. **Business Logic location:** Is business logic inside a UI component or a Controller instead of the Service/Domain layer?";
    "4. **Language:** Does the code use the Ubiquitous Language of the business, or generic technical terms?";
    "</checklist>";
    EmptyString;
    "<output_format>";
    "Output a Markdown list of **Domain Violations**. Explain *why* the separation is broken.";
    "If domain boundaries are clean, output " +:+ dq +:+ "NO ISSUES FOUND" +:+ dq +:+ ".";
    "</output_format>" ].

Definition ralph_sh_text : string :=
  unlines [
    "#!/bin/bash";
    "MAX_ITERATIONS=10";
    "COMPLETION_MARKER=" +:+ dq +:+ "<promise>COMPLETE</promise>" +:+ dq;
    "PROMPT_CONTENT=" +:+ dq +:+ "$1" +:+ dq;
    EmptyString;
    "echo " +:+ dq +:+ "ðŸ”„ Starting Fixer Loop..." +:+ dq;
    EmptyString;
    "for ((i=1; i<=MAX_ITERATIONS; i++)); do";
    "    echo " +:+ dq +:+ "--- Iteration $i ---" +:+ dq;
    "    ";
    "    # Run Claude with the prompt";
    "    # We pipe stderr to stdout to catch everything";
    "    output=$(claude -p " +:+ dq +:+ "$PROMPT_CONTENT" +:+ dq +:+ " --print 2>&1)";
    "    ";
    "    echo " +:+ dq +:+ "$output" +:+ dq;
    EmptyString;
    "    if echo " +:+ dq +:+ "$output" +:+ dq +:+ " | grep -q " +:+ dq +:+ "$COMPLETION_MARKER" +:+ dq +:+ "; then";
    "        echo " +:+ dq +:+ "âœ… Fixes applied and verified." +:+ dq;
    "        exit 0";
    "    fi";
    "    sleep 2";
    "done";
    EmptyString;
    "echo " +:+ dq +:+ "âŒ Max iterations reached." +:+ dq;
    "exit 1" ].

Definition run_gauntlet_sh_text : string :=
  unlines [
    "#!/bin/bash";
    EmptyString;
    "# Target directory (passed as arg or defaults to current dir)";
    "TARGET_DIR=" +:+ dq +:+ "${1:-.}" +:+ dq;
    "REPORT_FILE=" +:+ dq +:+ "COUNCIL_REPORT.md" +:+ dq;
    "PROMPT_DIR=" +:+ dq +:+ ".council/prompts" +:+ dq;
    EmptyString;
    "# Gather the code context (filtering out node_modules, git, etc.)";
    "# Note: For massive repos, replace this with a specific file list or use 'repomix'";
    "echo " +:+ dq +:+ "ðŸ“– Reading code context..." +:+ dq;
    "CODE_CONTEXT=$(find " +:+ dq +:+ "$TARGET_DIR" +:+ dq +:+ " -maxdepth 3 -name " +:+ dq +:+ "*.js" +:+ dq +:+ " -o -name " +:+ dq +:+ "*.ts" +:+ dq +:+ " -o -name " +:+ dq +:+ "*.jsx" +:+ dq +:+ " -o -name " +:+ dq +:+ "*.tsx" +:+ dq +:+ " -not -path " +:+ dq +:+ "*/node_modules/*" +:+ dq +:+ " | xargs cat)";
    EmptyString;
    "echo " +:+ dq +:+ "# Council of Agents Report" +:+ dq +:+ " > $REPORT_FILE";
    "echo " +:+ dq +:+ "Target: $TARGET_DIR" +:+ dq +:+ " >> $REPORT_FILE";
    "echo " +:+ dq +:+ "Date: $(date)" +:+ dq +:+ " >> $REPORT_FILE";
    "echo " +:+ dq +:+ "------------------------------------------------" +:+ dq +:+ " >> $REPORT_FILE";
    EmptyString;
    "run_agent() {";
    "    local name=$1";
    "    local prompt_path=$2";
    "    ";
    "    echo " +:+ dq +:+ "ðŸ¤– Agent [$name] is analyzing..." +:+ dq;
    "    ";
    "    # Combine System Prompt + Code Context";
    "    local full_prompt=" +:+ dq +:+ "$(cat $prompt_path)";
    "    ";
    "    <code_to_review>";
    "    $CODE_CONTEXT";
    "    </code_to_review>" +:+ dq;
    "    ";
    "    local result=$(claude -p " +:+ dq +:+ "$full_prompt" +:+ dq +:+ " --print 2>&1)";
    "    ";
    "    echo " +:+ dq +:+ "## ðŸ•µï¸ Agent: $name" +:+ dq +:+ " >> $REPORT_FILE";
    "    echo " +:+ dq +:+ "$result" +:+ dq +:+ " >> $REPORT_FILE";
    "    echo " +:+ dq +:+ "------------------------------------------------" +:+ dq +:+ " >> $REPORT_FILE";
    "}";
    EmptyString;
    "# Run in parallel";
    "run_agent " +:+ dq +:+ "QA Engineer" +:+ dq +:+ " " +:+ dq +:+ "$PROMPT_DIR/01_test_qa.md" +:+ dq +:+ " &";
    "run_agent " +:+ dq +:+ "Architect" +:+ dq +:+ " " +:+ dq +:+ "$PROMPT_DIR/02_structure_architect.md" +:+ dq +:+ " &";
    "run_agent " +:+ dq +:+ "Librarian" +:+ dq +:+ " " +:+ dq +:+ "$PROMPT_DIR/03_naming_librarian.md" +:+ dq +:+ " &";
    "run_agent " +:+ dq +:+ "Domain Warden" +:+ dq +:+ " " +:+ dq +:+ "$PROMPT_DIR/04_domain_warden.md" +:+ dq +:+ " &";
    EmptyString;
    "wait";
    EmptyString;
    "echo " +:+ dq +:+ "ðŸ“‹ Council meeting adjourned. Report generated at $REPORT_FILE" +:+ dq +:+ " " ].

Definition run_review_sh_text : string :=
  unlines [
    "#!/bin/bash";
    EmptyString;
    "# 1. Run the Gauntlet to generate the report";
    "chmod +x .council/scripts/run_gauntlet.sh";
    "./.council/scripts/run_gauntlet.sh " +:+ dq +:+ "./src" +:+ dq;
    EmptyString;
    "# 2. Ask user if they want to auto-fix";
    "echo " +:+ dq +:+ "Read the report at COUNCIL_REPORT.md" +:+ dq;
    "read -p " +:+ dq +:+ "Do you want the 'Ralph Wiggum' loop to attempt to fix these issues? (y/n) " +:+ dq +:+ " -n 1 -r";
    "echo";
    "if [[ ! $REPLY =~ ^[Yy]$ ]]; then";
    "    exit 1";
    "fi";
    EmptyString;
    "# 3. Construct the Fixer Prompt";
    "REPORT_CONTENT=$(cat COUNCIL_REPORT.md)";
    "FIXER_PROMPT=" +:+ dq +:+ "I have a code review report in COUNCIL_REPORT.md:";
    EmptyString;
    "<report>";
    "$REPORT_CONTENT";
    "</report>";
    EmptyString;
    "Your Goal: Fix the code based on these agents' findings.";
    "Rules:";
    "1. Address the 'Domain Warden' issues first (they are hardest).";
    "2. Rename variables as requested by the 'Librarian'.";
    "3. Refactor structure as requested by the 'Architect'.";
    "4. Finally, update/add tests as requested by the 'QA Engineer'.";
    "5. After every file change, run the tests (npm test).";
    "6. If tests fail, fix them immediately.";
    EmptyString;
    "When ALL items are addressed and tests pass, output exactly: <promise>COMPLETE</promise>." +:+ dq;
    EmptyString;
    "# 4. Run the Loop";
    "chmod +x .council/scripts/ralph.sh";
    "./.council/scripts/ralph.sh " +:+ dq +:+ "$FIXER_PROMPT" +:+ dq +:+ " " ].

(** The dictionary, in the order of its entries. *)
Definition files : list (string * string) :=
  [ (".council/prompts/01_test_qa.md", test_qa_md);
    (".council/prompts/02_structure_architect.md", structure_architect_md);
    (".council/prompts/03_naming_librarian.md", naming_librarian_md);
    (".council/prompts/04_domain_warden.md", domain_warden_md);
    (".council/scripts/ralph.sh", ralph_sh_text);
    (".council/scripts/run_gauntlet.sh", run_gauntlet_sh_text);
    ("run_review.sh", run_review_sh_text) ].

(** *** What the program uses of Python and its library *)

Inductive error :=
| FileExistsError
| FileNotFoundError
| IsADirectoryError
| NotADirectoryError
| PermissionError
| RecursionError
| UnsupportedOperation.

Inductive result (A : Type) :=
| Ok (a : A)
| Raise (e : error).

Arguments Ok {A} a.
Arguments Raise {A} e.

Definition bind {A B} (c : result A) (k : A -> result B) : result B :=
  match c with
  | Ok a => k a
  | Raise e => Raise e
  end.

#[global] Instance result_bind : MBind result := fun A B k c => bind c k.

(** [str.isspace] on the characters below 128, and [str.strip()]. *)
Definition py_isspace (c : ascii) : bool :=
  let n := nat_of_ascii c in
  ((9 <=? n) && (n <=? 13)) || ((28 <=? n) && (n <=? 32)).

Definition strip (s : string) : string := lstrip py_isspace (rstrip py_isspace s).

Definition is_slash (c : ascii) : bool := bool_decide (c = "/"%char).

Definition is_empty (s : string) : bool :=
  match s with EmptyString => true | _ => false end.

(** [p[:i], p[i:]] for [i = p.rfind('/') + 1]. *)
Fixpoint cut_last_slash (p : string) : string * string :=
  match p with
  | EmptyString => (EmptyString, EmptyString)
  | String a r =>
      let '(h, t) := cut_last_slash r in
      if has_char "/" r then (String a h, t)
      else if is_slash a then ("/", r)
      else (EmptyString, String a r)
  end.

(** [os.path.split] and [os.path.dirname]. *)
Definition path_split (p : string) : string * string :=
  let '(head, tail) := cut_last_slash p in
  (if negb (is_empty head) && negb (all_chars is_slash head)
   then rstrip is_slash head else head, tail).

Definition dirname (p : string) : string := fst (path_split p).

(** [str.endswith]. *)
Fixpoint endswith (suffix s : string) : bool :=
  if bool_decide (s = suffix) then true
  else match s with
       | EmptyString => false
       | String _ r => endswith suffix r
       end.

(** [str.split('/')] and ['/'.join]. *)
Fixpoint split_slash (s : string) : list string :=
  match s with
  | EmptyString => [EmptyString]
  | String a r =>
      if is_slash a then EmptyString :: split_slash r
      else match split_slash r with
           | h :: t => String a h :: t
           | [] => [String a EmptyString]
           end
  end.

Fixpoint join_slash (l : list string) : string :=
  match l with
  | [] => EmptyString
  | [s] => s
  | s :: r => s +:+ "/" +:+ join_slash r
  end.

(** [os.path.normpath]. *)
Definition normpath (path : string) : string :=
  if is_empty path then "." else
  let initial_slashes :=
    if starts_with "/" path then
      (if starts_with "//" path && negb (starts_with "///" path) then 2 else 1)
    else 0 in
  let new_comps :=
    fold_left (fun new_comps comp =>
      if bool_decide (comp = EmptyString) || bool_decide (comp = ".") then new_comps
      else if negb (bool_decide (comp = ".."))
              || ((initial_slashes =? 0) && bool_decide (new_comps = []))
              || bool_decide (last new_comps = Some "..")
           then new_comps ++ [comp]
           else removelast new_comps)
      (split_slash path) [] in
  let path := concat (replicate initial_slashes "/") +:+ join_slash new_comps in
  if is_empty path then "." else path.

(** The name a file gets in an archive: [normpath], less leading slashes. *)
Definition arcname (filename : string) : string :=
  lstrip is_slash (normpath filename).

(** The world the program runs in: the disk under the working directory,
    the process's umask, what it has printed.  The working directory is
    the entry at the empty path, so that [dirname] of a bare name names
    it.  Every entry belongs to the user who runs the program, and that
    user is not the superuser: of a mode it is the owner's three bits
    that decide what the program may do. *)
Record world := World {
  disk : gmap string node;
  umask : N;
  printed : list string
}.

Definition print (line : string) (w : world) : world :=
  World (disk w) (umask w) (printed w ++ [line +:+ NL]).

Definition on_disk (f : gmap string node -> result (gmap string node)) (w : world)
  : result world :=
  d ← f (disk w); Ok (World d (umask w) (printed w)).

(** The owner's bits of a mode: [0o400], [0o200], [0o100]. *)
Definition owner_r (mode : N) : bool := N.testbit mode 8.
Definition owner_w (mode : N) : bool := N.testbit mode 7.
Definition owner_x (mode : N) : bool := N.testbit mode 6.

(** The directories a relative path goes through, the working directory
    first. *)
Fixpoint above (fuel : nat) (p : string) : list string :=
  match fuel with
  | 0 => []
  | S fuel' =>
      let head := dirname p in
      if is_empty head then [EmptyString] else above fuel' head ++ [head]
  end.

(** Walking down [dirs]: each has to be a directory the user may search. *)
Fixpoint search (d : gmap string node) (dirs : list string) : option error :=
  match dirs with
  | [] => None
  | a :: rest =>
      match d !! a with
      | Some (Dir mode) => if owner_x mode then search d rest else Some PermissionError
      | Some _ => Some NotADirectoryError
      | None => Some FileNotFoundError
      end
  end.

(** What keeps the system from looking the name [p] up, if anything. *)
Definition reach (d : gmap string node) (p : string) : option error :=
  search d (above (String.length p) p).

(** [os.path.exists] and [os.path.isdir]: false also when the name
    cannot be looked up. *)
Definition path_exists (d : gmap string node) (p : string) : bool :=
  match reach d p with
  | None => bool_decide (is_Some (d !! p))
  | Some _ => false
  end.

Definition isdir (d : gmap string node) (p : string) : bool :=
  match reach d p with
  | None => match d !! p with Some (Dir _) => true | _ => false end
  | Some _ => false
  end.

(** May an entry be added to the directory [p] is in. *)
Definition parent_writable (d : gmap string node) (p : string) : bool :=
  match d !! dirname p with
  | Some (Dir mode) => owner_w mode
  | _ => false
  end.

(** [os.mkdir(name, 0o777)]: the new directory has the mode the umask
    leaves of [0o777]. *)
Definition mkdir (name : string) (um : N) (d : gmap string node)
  : result (gmap string node) :=
  match reach d name with
  | Some e => Raise e
  | None =>
      match d !! name with
      | Some _ => Raise FileExistsError
      | None =>
          if parent_writable d name then Ok (<[name := Dir (N.ldiff 511 um)]> d)
          else Raise PermissionError
      end
  end.

(** The end of [os.makedirs] with [exist_ok=True]: [mkdir], its error
    let pass when the name is a directory. *)
Definition mkdir_exist_ok (name : string) (um : N) (d : gmap string node)
  : result (gmap string node) :=
  match mkdir name um d with
  | Ok d' => Ok d'
  | Raise e => if isdir d name then Ok d else Raise e
  end.

(** [os.makedirs(name, exist_ok=True)]; the fuel is Python's recursion
    limit. *)
Fixpoint makedirs (fuel : nat) (name : string) (um : N) (d : gmap string node)
  : result (gmap string node) :=
  match fuel with
  | 0 => Raise RecursionError
  | S fuel' =>
      let '(head, tail) := path_split name in
      let '(head, tail) := if is_empty tail then path_split head else (head, tail) in
      if negb (is_empty head) && negb (is_empty tail) && negb (path_exists d head) then
        match makedirs fuel' head um d with
        | Ok d' => if bool_decide (tail = ".") then Ok d' else mkdir_exist_ok name um d'
        | Raise FileExistsError =>
            if bool_decide (tail = ".") then Ok d else mkdir_exist_ok name um d
        | Raise e => Raise e
        end
      else mkdir_exist_ok name um d
  end.

(** Opening [path] to write it anew, [plus] to read it as well (the
    modes ['w'] and ['w+']): the mode the entry has afterwards.  An entry
    that is there keeps its mode and has to allow what is asked of it; a
    new one needs a directory that may be written and gets the mode the
    umask leaves of [0o666]. *)
Definition open_w (plus : bool) (path : string) (um : N) (d : gmap string node)
  : result N :=
  match reach d path with
  | Some e => Raise e
  | None =>
      match d !! path with
      | Some (Dir _) => Raise IsADirectoryError
      | Some (File _ mode) | Some (Zip _ mode) =>
          if owner_w mode && (negb plus || owner_r mode) then Ok mode
          else Raise PermissionError
      | None =>
          if parent_writable d path then Ok (N.ldiff 438 um) else Raise PermissionError
      end
  end.

(** [with open(path, 'w') as f: f.write(content)] *)
Definition write_file (path content : string) (um : N) (d : gmap string node)
  : result (gmap string node) :=
  mode ← open_w false path um d; Ok (<[path := File content mode]> d).

(** [os.chmod], which the owner of an entry may always do. *)
Definition chmod (path : string) (mode : N) (d : gmap string node)
  : result (gmap string node) :=
  match reach d path with
  | Some e => Raise e
  | None =>
      match d !! path with
      | Some (File content _) => Ok (<[path := File content mode]> d)
      | Some (Dir _) => Ok (<[path := Dir mode]> d)
      | Some (Zip members _) => Ok (<[path := Zip members mode]> d)
      | None => Raise FileNotFoundError
      end
  end.

(** [zipfile.ZipFile(name, 'w')]: the archive is made anew, empty.  The
    library opens it with ['w+b'] and, when that fails, with ['wb']. *)
Definition zip_open (name : string) (um : N) (d : gmap string node)
  : result (gmap string node) :=
  match open_w true name um d with
  | Ok mode => Ok (<[name := Zip [] mode]> d)
  | Raise _ => mode ← open_w false name um d; Ok (<[name := Zip [] mode]> d)
  end.

(** [zipf.write(path)]: the file as it is on disk now is read and goes
    into the archive, after the members it has. *)
Definition zip_write (zip path : string) (d : gmap string node)
  : result (gmap string node) :=
  match reach d path with
  | Some e => Raise e
  | None =>
      match d !! path, d !! zip with
      | Some (File content mode), Some (Zip members zmode) =>
          if owner_r mode
          then Ok (<[zip := Zip (members ++ [(arcname path, content)]) zmode]> d)
          else Raise PermissionError
      | Some (Dir _), Some (Zip members zmode) =>
          Ok (<[zip := Zip (members ++ [(arcname path +:+ "/", EmptyString)]) zmode]> d)
      | None, _ => Raise FileNotFoundError
      | _, _ => Raise UnsupportedOperation
      end
  end.

(** *** The program *)

Definition ZIP : string := "council_of_agents.zip".

(** The body of [for path, content in files.items()]. *)
Definition install (entry : string * string) (w : world) : result world :=
  let '(path, content) := entry in
  let dir_name := dirname path in
  w ← (if negb (is_empty dir_name)
        then on_disk (makedirs (S (String.length dir_name)) dir_name (umask w)) w
        else Ok w);
  w ← on_disk (write_file path (strip content) (umask w)) w;
  w ← (if endswith ".sh" path then on_disk (chmod path 493) w else Ok w);
  w ← on_disk (zip_write ZIP path) w;
  Ok (print ("  + Added " +:+ path) w).

Fixpoint for_each (entries : list (string * string)) (w : world) : result world :=
  match entries with
  | [] => Ok w
  | entry :: rest => w ← install entry w; for_each rest w
  end.

Definition create_council_zip (w : world) : result world :=
  let w := print "Creating Council of Agents..." w in
  w ← on_disk (zip_open ZIP (umask w)) w;
  w ← for_each files w;
  Ok (print (NL +:+ "âœ… Success! Created 'council_of_agents.zip' and the '.council' directory.") w).

(** The mode of a file or archive once it has been opened to be written:
    the one it had or, when new, the one it is made with. *)
Definition kept_mode (path : string) (um : N) (d : gmap string node) : N :=
  match d !! path with
  | Some (File _ mode) | Some (Zip _ mode) => mode
  | _ => N.ldiff 438 um
  end.

(** The mode of the file at [path] once its entry is done: a script is
    made executable, another file has the mode it was opened with. *)
Definition mode_after (path : string) (um : N) (d : gmap string node) : N :=
  if endswith ".sh" path then 493 else kept_mode path um d.

(** The mode of the directory at [p] once [makedirs] has gone through
    it: the one it had or, when new, what the umask leaves of [0o777]. *)
Definition dmode (d : gmap string node) (um : N) (p : string) : N :=
  match d !! p with
  | Some (Dir mode) => mode
  | _ => N.ldiff 511 um
  end.

(** Is [line] one of the lines of [text]. *)
Definition has_line (line text : string) : bool :=
  existsb (fun l => bool_decide (l = line)) (lines text).

(** *** Where the program can run *)

(** The directories the entries of [files] go into, and those above them. *)
Definition needed_dirs : list string :=
  [".council"; ".council/prompts"; ".council/scripts"].

(** A directory the user may search and add entries to. *)
Definition usable (d : gmap string node) (p : string) : bool :=
  match d !! p with
  | Some (Dir mode) => owner_w mode && owner_x mode
  | _ => false
  end.

(** Where a directory is needed: there is one the user may search and
    add entries to, or nothing and the umask leaves a new directory that
    much. *)
Definition dir_ok (d : gmap string node) (um : N) (p : string) : bool :=
  match d !! p with
  | None => owner_w (N.ldiff 511 um) && owner_x (N.ldiff 511 um)
  | Some (Dir mode) => owner_w mode && owner_x mode
  | Some _ => false
  end.

(** Where a file is to be written: there is a file the user may write,
    or nothing; and the file can be read when it goes into the archive,
    which a script, made executable before, always can. *)
Definition file_ok (d : gmap string node) (um : N) (p : string) : bool :=
  match d !! p with
  | None => endswith ".sh" p || owner_r (N.ldiff 438 um)
  | Some (Dir _) => false
  | Some (File _ mode) | Some (Zip _ mode) =>
      owner_w mode && (endswith ".sh" p || owner_r mode)
  end.

(** Where the archive is to be written: a file the user may write, or
    nothing. *)
Definition zip_ok (d : gmap string node) (p : string) : bool :=
  match d !! p with
  | None => true
  | Some (Dir _) => false
  | Some (File _ mode) | Some (Zip _ mode) => owner_w mode
  end.

(** Nothing is in the way and nothing is refused: the working directory
    may be searched and written, and so may each directory, file and
    archive the program goes through or writes, where it is there. *)
Definition installable (w : world) : bool :=
  usable (disk w) EmptyString
  && forallb (dir_ok (disk w) (umask w)) needed_dirs
  && forallb (file_ok (disk w) (umask w)) (map fst files)
  && zip_ok (disk w) ZIP.

End Installer.

(** ** Engines and schedules to run the scripts on *)

Module Examples.
Import Text Bash.

(** Every reviewer finds nothing. *)
Definition content_engine : string -> nat -> outcome :=
  fun _ _ => Outcome [(Stdout, "NO ISSUES FOUND" +:+ NL)] 0.

(** The second reviewer's run fails with the two characters [-n] on its
    error stream; the others find nothing. *)
Definition failing_engine : string -> nat -> outcome :=
  fun _ j =>
    if decide (j = 1) then Outcome [(Stderr, "-n" +:+ NL)] 1
    else Outcome [(Stdout, "NO ISSUES FOUND" +:+ NL)] 0.

(** A fixer that reports success on its third run. *)
Definition third_time_lucky : string -> nat -> outcome :=
  fun _ i =>
    if decide (i = 3)
    then Outcome [(Stdout, "All green. <promise>COMPLETE</promise>" +:+ NL)] 0
    else Outcome [(Stdout, "Still failing: 2 tests" +:+ NL); (Stderr, "npm ERR!" +:+ NL)] 1.

(** A fixer that never does. *)
Definition never_done : string -> nat -> outcome :=
  fun _ _ => Outcome [(Stdout, "Work is COMPLETE, promise." +:+ NL)] 0.

Definition no_sources : string -> string := fun _ => EmptyString.
Definition some_date : string := "Wed Nov  4 00:15:00 UTC 2026" +:+ NL.

(** The Architect answers first, the Librarian last. *)
Definition architect_first : list nat := [1; 0; 3; 2].

(** The jobs answer in the order they were launched. *)
Definition in_turn : list nat := Gauntlet.one_after_another 4 [0; 1; 2; 3].

(** A working directory of mode [0o755] with nothing in it, and a run of
    the installer there under the umask [0o022]. *)
Definition home : gmap string Disk.node := {[ EmptyString := Disk.Dir 493 ]}.
Definition fresh : Installer.world := Installer.World home 18 [].

(** Runs of the installer that are refused: in an empty directory under
    the umask [0o777], there under the umask [0o400], and where the first
    prompt is there already, read-only ([0o444]). *)
Definition locked : Installer.world := Installer.World home 511 [].
Definition unreadable : Installer.world := Installer.World home 256 [].
Definition read_only : Installer.world :=
  Installer.World
    (<[".council/prompts/01_test_qa.md" := Disk.File "old" 292]>
       (<[".council/prompts" := Disk.Dir 493]>
          (<[".council" := Disk.Dir 493]> home))) 18 [].

End Examples.

(** * Properties *)

(** ** Substring search and lines *)

Module TextFacts.
Import Text.

Lemma str_app_cons a s t : String a s +:+ t = String a (s +:+ t).
Proof. reflexivity. Qed.

Lemma str_app_nil_l s : EmptyString +:+ s = s.
Proof. reflexivity. Qed.

Lemma str_app_nil_r s : s +:+ EmptyString = s.
Proof. induction s as [|a s IH]; [reflexivity|]. rewrite str_app_cons, IH. reflexivity. Qed.

Lemma str_app_assoc s t u : (s +:+ t) +:+ u = s +:+ t +:+ u.
Proof.
  induction s as [|a s IH]; [reflexivity|].
  rewrite !str_app_cons, IH. reflexivity.
Qed.

Lemma starts_with_spec p s :
  starts_with p s = true <-> exists t, s = p +:+ t.
Proof.
  revert s. induction p as [|a p IH]; intros s.
  - split; [intros _; exists s; reflexivity | reflexivity].
  - destruct s as [|b s]; simpl.
    + split; [discriminate | intros [t Ht]; discriminate].
    + destruct (decide (a = b)) as [->|Hab].
      * rewrite IH. split; intros [t Ht]; exists t.
        -- rewrite str_app_cons. congruence.
        -- rewrite str_app_cons in Ht. congruence.
      * split; [discriminate|]. intros [t Ht]. rewrite str_app_cons in Ht. congruence.
Qed.

Lemma starts_with_nil_r p : starts_with p EmptyString = true <-> p = EmptyString.
Proof. destruct p; simpl; split; congruence. Qed.

Lemma starts_with_contains m s : starts_with m s = true -> contains m s = true.
Proof. destruct s; simpl; [tauto|]. intros ->. reflexivity. Qed.

Lemma contains_spec m s : contains m s = true <-> occurs_in m s.
Proof.
  split.
  - induction s as [|a s IH]; simpl.
    + intros H. apply starts_with_nil_r in H as ->. exists EmptyString, EmptyString. reflexivity.
    + intros H. apply orb_true_iff in H as [H|H].
      * apply starts_with_spec in H as [t Ht]. exists EmptyString, t. exact Ht.
      * destruct (IH H) as (pre & post & ->). exists (String a pre), post. reflexivity.
  - intros (pre & post & ->). induction pre as [|a pre IH].
    + apply starts_with_contains, starts_with_spec. exists post. reflexivity.
    + rewrite str_app_cons. simpl. rewrite IH. apply orb_true_r.
Qed.

Lemma contains_false m s : contains m s = false <-> ~ occurs_in m s.
Proof. rewrite <- contains_spec. destruct (contains m s); split; congruence. Qed.

End TextFacts.

(** ** Lines, and what [echo] and [grep -q] make of a text *)

Module BashFacts.
Import Text Bash TextFacts.

Lemma has_char_app c s t : has_char c (s +:+ t) = has_char c s || has_char c t.
Proof.
  induction s as [|a s IH]; [reflexivity|].
  rewrite str_app_cons. simpl. destruct (decide (a = c)); [reflexivity | exact IH].
Qed.

Lemma occurs_has_char c m s :
  occurs_in m s -> has_char c m = true -> has_char c s = true.
Proof.
  intros (pre & post & ->) Hc.
  rewrite !has_char_app, Hc. apply orb_true_iff. right. reflexivity.
Qed.

Lemma all_chars_has_char f c s :
  all_chars f s = true -> f c = false -> has_char c s = false.
Proof.
  intros Hall Hf. induction s as [|a s IH]; [reflexivity|].
  simpl in *. apply andb_true_iff in Hall as [Ha Hs].
  destruct (decide (a = c)) as [->|_]; [congruence | auto].
Qed.

(** An argument [echo] reads as options has no character but [-], [n],
    [e] and [E]. *)
Lemma echo_option_chars c s :
  is_echo_option s = true -> c <> "-"%char -> echo_flag c = false ->
  has_char c s = false.
Proof.
  intros Hopt Hc Hf. destruct s as [|a s]; [discriminate Hopt|].
  destruct (decide (a = "-"%char)) as [->|Hna].
  - destruct s as [|b r]; [discriminate Hopt|].
    change (has_char c (String "-" (String b r)))
      with (if decide ("-"%char = c) then true else has_char c (String b r)).
    destruct (decide ("-"%char = c)); [congruence|].
    eapply all_chars_has_char; eauto.
  - destruct a as [[] [] [] [] [] [] [] []]; destruct s;
      try discriminate Hopt; congruence.
Qed.

Lemma lines_nil s : lines s = [] -> s = EmptyString.
Proof.
  destruct s as [|a s]; [reflexivity|]. simpl.
  destruct (decide (a = nl)); [discriminate|]. destruct (lines s); discriminate.
Qed.

(** A newline-free text starts a text exactly when it starts its first line. *)
Lemma first_line_starts p s h t :
  has_char nl p = false -> lines s = h :: t ->
  starts_with p h = starts_with p s.
Proof.
  revert p h t. induction s as [|a s IH]; intros p h t Hp Hl; [discriminate|].
  destruct p as [|b p]; [reflexivity|].
  simpl in Hp. destruct (decide (b = nl)) as [|Hb]; [discriminate|].
  simpl in Hl. destruct (decide (a = nl)) as [->|Ha].
  - injection Hl as <- _. simpl. destruct (decide (b = nl)); [contradiction | reflexivity].
  - destruct (lines s) as [|h' t'] eqn:Hs.
    + apply lines_nil in Hs as ->. injection Hl as <- _. reflexivity.
    + injection Hl as <- _. simpl. destruct (decide (b = a)); [|reflexivity].
      eapply IH; eauto.
Qed.

(** Searching line by line finds a newline-free text exactly when it is
    in the whole text. *)
Lemma grep_lines m s :
  has_char nl m = false -> m <> EmptyString ->
  existsb (contains m) (lines s) = contains m s.
Proof.
  intros Hm Hne. destruct m as [|b m]; [contradiction|].
  assert (Hb : b <> nl).
  { simpl in Hm. destruct (decide (b = nl)); [discriminate | assumption]. }
  induction s as [|a s IH]; [reflexivity|].
  simpl lines. destruct (decide (a = nl)) as [->|Ha].
  - simpl. rewrite IH. destruct (decide (b = nl)); [contradiction | reflexivity].
  - destruct (lines s) as [|h t] eqn:Hs.
    + apply lines_nil in Hs as ->. simpl.
      destruct (decide (b = a)); [|reflexivity]. rewrite !orb_false_r. reflexivity.
    + change (contains (String b m) (String a s))
        with (starts_with (String b m) (String a s) || contains (String b m) s).
      rewrite <- IH.
      change (existsb (contains (String b m)) (String a h :: t))
        with ((starts_with (String b m) (String a h) || contains (String b m) h)
              || existsb (contains (String b m)) t).
      change (existsb (contains (String b m)) (h :: t))
        with (contains (String b m) h || existsb (contains (String b m)) t).
      rewrite <- orb_assoc. f_equal.
      simpl. destruct (decide (b = a)); [|reflexivity].
      eapply first_line_starts; eauto.
      simpl in Hm. destruct (decide (b = nl)); [discriminate | assumption].
Qed.

Lemma starts_with_app_NL p s :
  has_char nl p = false -> starts_with p (s +:+ NL) = starts_with p s.
Proof.
  revert s. induction p as [|b p IH]; intros s Hp; [reflexivity|].
  simpl in Hp. destruct (decide (b = nl)) as [|Hb]; [discriminate|].
  destruct s as [|a s].
  - simpl. destruct (decide (b = nl)); [contradiction | reflexivity].
  - rewrite str_app_cons. simpl. destruct (decide (b = a)); [auto | reflexivity].
Qed.

(** The newline [echo] adds hides nothing and adds no occurrence. *)
Lemma contains_app_NL m s :
  has_char nl m = false -> m <> EmptyString ->
  contains m (s +:+ NL) = contains m s.
Proof.
  intros Hm Hne. induction s as [|a s IH].
  - destruct m as [|b m]; [contradiction|]. simpl in *.
    destruct (decide (b = nl)); [discriminate | reflexivity].
  - rewrite str_app_cons.
    change (contains m (String a (s +:+ NL)))
      with (starts_with m (String a (s +:+ NL)) || contains m (s +:+ NL)).
    rewrite IH, <- str_app_cons, starts_with_app_NL by assumption. reflexivity.
Qed.

(** [echo TEXT | grep -q M] for a newline-free [M] with a character that
    no option of [echo] has: the plain substring test on [TEXT]. *)
Lemma grep_echo m c s :
  has_char nl m = false -> has_char c m = true ->
  c <> "-"%char -> echo_flag c = false ->
  grep_q m (echo s) = contains m s.
Proof.
  intros Hnl Hc Hdash Hflag.
  assert (Hne : m <> EmptyString) by (intros ->; discriminate).
  unfold grep_q, echo. destruct (is_echo_option s) eqn:Hopt.
  - assert (Hno : contains m s = false).
    { apply contains_false. intros Hocc.
      pose proof (occurs_has_char c m s Hocc Hc) as H1.
      rewrite (echo_option_chars c s Hopt Hdash Hflag) in H1. discriminate. }
    rewrite Hno. destruct (has_char "n" s); [reflexivity|].
    destruct m; [contradiction | reflexivity].
  - rewrite grep_lines, contains_app_NL by assumption. reflexivity.
Qed.

End BashFacts.

(** ** ralph.sh: the completion test and the two ways out of the loop *)

Module RalphFacts.
Import Text Bash Ralph TextFacts BashFacts.

Lemma marker_found_contains output :
  marker_found output = contains COMPLETION_MARKER output.
Proof.
  unfold marker_found. apply (grep_echo COMPLETION_MARKER "<"%char); try reflexivity.
  discriminate.
Qed.

Lemma marker_found_true output :
  marker_found output = true <-> occurs_in COMPLETION_MARKER output.
Proof. rewrite marker_found_contains. apply contains_spec. Qed.

Lemma marker_found_false output :
  marker_found output = false <-> ~ occurs_in COMPLETION_MARKER output.
Proof. rewrite marker_found_contains. apply contains_false. Qed.

Section Loop.
Variable claude : string -> nat -> outcome.
Variable prompt : string.

Local Abbreviation out := (output_at claude prompt).
Local Abbreviation loop := (for_loop claude prompt).

Lemma calls_from_S i n : calls_from prompt i (S n) = (prompt, i) :: calls_from prompt (S i) n.
Proof. reflexivity. Qed.

(** The marker first shows at iteration [k]: the loop leaves through
    [exit 0] there, having called the engine for [i..k]. *)
Lemma for_loop_completes max fuel i k w :
  i <= k <= max -> k - i < fuel ->
  occurs_in COMPLETION_MARKER (out k) ->
  (forall j, i <= j < k -> ~ occurs_in COMPLETION_MARKER (out j)) ->
  exists w', loop max fuel i w = Some (Completed, w')
             /\ calls w' = calls w ++ calls_from prompt i (S k - i).
Proof.
  revert i w. induction fuel as [|fuel IH]; intros i w Hik Hfuel Hk Hbefore; [lia|].
  simpl. destruct (Nat.leb_spec i max) as [_|Hgt]; [|lia].
  destruct (decide (i = k)) as [->|Hne].
  - apply marker_found_true in Hk. rewrite Hk. eexists. split; [reflexivity|].
    simpl. replace (S k - k) with 1 by lia. reflexivity.
  - assert (Hi : marker_found (out i) = false).
    { apply marker_found_false, Hbefore. lia. }
    rewrite Hi.
    destruct (IH (S i)
                (sleep 2 (say (out i) (invoked prompt i
                   (say ("--- Iteration " +:+ pretty i +:+ " ---") w)))))
      as (w' & Hrun & Hcalls); [lia | lia | assumption | |].
    { intros j Hj. apply Hbefore. lia. }
    exists w'. split; [exact Hrun|]. rewrite Hcalls. simpl.
    replace (S k - i) with (S (S k - S i)) by lia.
    rewrite calls_from_S, <- app_assoc. reflexivity.
Qed.

(** No marker in [i..max]: the loop runs to the end and leaves through
    [exit 1], having called the engine once for each of [i..max]. *)
Lemma for_loop_exhausts max fuel i w :
  i <= S max -> S max - i < fuel ->
  (forall j, i <= j <= max -> ~ occurs_in COMPLETION_MARKER (out j)) ->
  exists w', loop max fuel i w = Some (Exhausted, w')
             /\ calls w' = calls w ++ calls_from prompt i (S max - i).
Proof.
  revert i w. induction fuel as [|fuel IH]; intros i w Hi Hfuel Hnone; [lia|].
  simpl. destruct (Nat.leb_spec i max) as [Hle|Hgt].
  - assert (Hm : marker_found (out i) = false).
    { apply marker_found_false, Hnone. lia. }
    rewrite Hm.
    destruct (IH (S i)
                (sleep 2 (say (out i) (invoked prompt i
                   (say ("--- Iteration " +:+ pretty i +:+ " ---") w)))))
      as (w' & Hrun & Hcalls); [lia | lia | |].
    { intros j Hj. apply Hnone. lia. }
    exists w'. split; [exact Hrun|]. rewrite Hcalls. simpl.
    replace (S max - i) with (S (S max - S i)) by lia.
    rewrite calls_from_S, <- app_assoc. reflexivity.
  - eexists. split; [reflexivity|]. simpl.
    replace (S max - i) with 0 by lia. unfold calls_from. simpl.
    rewrite app_nil_r. reflexivity.
Qed.

(** Whatever the engine answers, the loop ends within its fuel and never
    calls the engine for an iteration beyond [max]. *)
Lemma for_loop_bounded max fuel i w :
  i <= S max -> S max - i < fuel ->
  exists t w', loop max fuel i w = Some (t, w')
               /\ length (calls w') <= length (calls w) + (S max - i).
Proof.
  revert i w. induction fuel as [|fuel IH]; intros i w Hi Hfuel; [lia|].
  simpl. destruct (Nat.leb_spec i max) as [Hle|Hgt].
  - destruct (marker_found (out i)).
    + eexists _, _. split; [reflexivity|]. simpl. rewrite length_app. simpl. lia.
    + destruct (IH (S i)
                  (sleep 2 (say (out i) (invoked prompt i
                     (say ("--- Iteration " +:+ pretty i +:+ " ---") w)))))
        as (t & w' & Hrun & Hlen); [lia | lia |].
      exists t, w'. split; [exact Hrun|].
      simpl in Hlen. rewrite length_app in Hlen. simpl in Hlen. lia.
  - eexists _, _. split; [reflexivity|]. simpl. lia.
Qed.

(** The loop always ends, and it ends Completed exactly when some
    iteration of [i..max] shows the marker. *)
Lemma for_loop_status max fuel i w :
  i <= S max -> S max - i < fuel ->
  exists t w', loop max fuel i w = Some (t, w')
    /\ (t = Completed <->
        exists k, i <= k <= max /\ occurs_in COMPLETION_MARKER (out k)).
Proof.
  revert i w. induction fuel as [|fuel IH]; intros i w Hi Hfuel; [lia|].
  simpl. destruct (Nat.leb_spec i max) as [Hle|Hgt].
  - destruct (marker_found (out i)) eqn:Hm.
    + eexists _, _. split; [reflexivity|]. split; [|reflexivity].
      intros _. exists i. split; [lia|]. apply marker_found_true, Hm.
    + destruct (IH (S i)
                  (sleep 2 (say (out i) (invoked prompt i
                     (say ("--- Iteration " +:+ pretty i +:+ " ---") w)))))
        as (t & w' & Hrun & Hiff); [lia | lia |].
      exists t, w'. split; [exact Hrun|]. rewrite Hiff. split.
      * intros (k & Hk & Hocc). exists k. split; [lia | exact Hocc].
      * intros (k & Hk & Hocc). exists k. split; [|exact Hocc].
        destruct (decide (k = i)) as [->|]; [|lia].
        apply marker_found_false in Hm. contradiction.
  - eexists _, _. split; [reflexivity|]. split; [discriminate|].
    intros (k & Hk & _). lia.
Qed.

Lemma calls_from_length i n : length (calls_from prompt i n) = n.
Proof. unfold calls_from. rewrite length_map, length_seq. reflexivity. Qed.

End Loop.

(** C3. The completion test of the loop, [echo "$output" | grep -q
    "$COMPLETION_MARKER"], holds exactly when the marker literal occurs in
    the output as a substring: anywhere, whatever surrounds it, and with
    its exact characters; COMPLETE alone, or the marker in another case,
    does not pass.  The marker has no character that is special in the
    pattern [grep] takes it for. *)
Theorem completion_test_exact :
  (forall output, marker_found output = true <-> occurs_in COMPLETION_MARKER output)
  /\ (forall pre post, marker_found (pre +:+ COMPLETION_MARKER +:+ post) = true)
  /\ marker_found "COMPLETE" = false
  /\ marker_found "All tasks COMPLETE, see <promise> above." = false
  /\ marker_found "<promise>complete</promise>" = false
  /\ marker_found "<PROMISE>COMPLETE</PROMISE>" = false
  /\ all_chars bre_ordinary COMPLETION_MARKER = true.
Proof.
  split; [exact marker_found_true|].
  split; [|repeat split; reflexivity].
  intros pre post. apply marker_found_true. exists pre, post. reflexivity.
Qed.

(** C1. When the engine's output at iteration [k], [1 <= k <=
    MAX_ITERATIONS], is the first to contain the marker, [ralph.sh] ends
    Completed with exit status 0 after exactly [k] calls of the engine,
    those of iterations [1..k], all with the prompt it was given. *)
Theorem ralph_completes_at_first_marker claude prompt k :
  1 <= k <= MAX_ITERATIONS ->
  occurs_in COMPLETION_MARKER (output_at claude prompt k) ->
  (forall j, 1 <= j < k -> ~ occurs_in COMPLETION_MARKER (output_at claude prompt j)) ->
  exists t w, ralph_sh claude prompt = Some (t, w)
    /\ t = Completed /\ exit_code t = 0
    /\ length (calls w) = k
    /\ calls w = map (fun i => (prompt, i)) (seq 1 k).
Proof.
  intros Hk Hat Hbefore.
  destruct (for_loop_completes claude prompt MAX_ITERATIONS (S MAX_ITERATIONS) 1 k
              (start) ltac:(lia) ltac:(lia) Hat Hbefore) as (w & Hrun & Hcalls).
  exists Completed, w. split; [exact Hrun|].
  replace (S k - 1) with k in Hcalls by lia. simpl in Hcalls.
  repeat split; [|exact Hcalls].
  rewrite Hcalls. apply calls_from_length.
Qed.

(** C2. When no output of iterations [1..MAX_ITERATIONS] contains the
    marker, [ralph.sh] calls the engine exactly [MAX_ITERATIONS] = 10 times
    and ends Exhausted with exit status 1; and whatever the engine
    answers, the script ends and has made at most [MAX_ITERATIONS] calls. *)
Theorem ralph_exhausts_after_max_iterations :
  MAX_ITERATIONS = 10
  /\ (forall claude prompt,
        (forall i, 1 <= i <= MAX_ITERATIONS ->
                   ~ occurs_in COMPLETION_MARKER (output_at claude prompt i)) ->
        exists t w, ralph_sh claude prompt = Some (t, w)
          /\ t = Exhausted /\ exit_code t <> 0
          /\ length (calls w) = MAX_ITERATIONS)
  /\ (forall claude prompt,
        exists t w, ralph_sh claude prompt = Some (t, w)
          /\ length (calls w) <= MAX_ITERATIONS).
Proof.
  split; [reflexivity|]. split.
  - intros claude prompt Hnone.
    destruct (for_loop_exhausts claude prompt MAX_ITERATIONS (S MAX_ITERATIONS) 1
                start ltac:(unfold MAX_ITERATIONS; lia) ltac:(lia) Hnone)
      as (w & Hrun & Hcalls).
    exists Exhausted, w. split; [exact Hrun|]. repeat split; [discriminate|].
    rewrite Hcalls, length_app, calls_from_length. reflexivity.
  - intros claude prompt.
    destruct (for_loop_bounded claude prompt MAX_ITERATIONS (S MAX_ITERATIONS) 1
                start ltac:(unfold MAX_ITERATIONS; lia) ltac:(lia))
      as (t & w & Hrun & Hlen).
    exists t, w. split; [exact Hrun|]. simpl in Hlen. unfold MAX_ITERATIONS in *. lia.
Qed.

Lemma ralph_completes_at_first_marker_witness :
  exists t w,
    ralph_sh Examples.third_time_lucky "fix it" = Some (t, w)
    /\ t = Completed /\ exit_code t = 0
    /\ length (calls w) = 3
    /\ calls w = map (fun i => ("fix it", i)) (seq 1 3).
Proof.
  apply (ralph_completes_at_first_marker Examples.third_time_lucky "fix it" 3).
  - unfold MAX_ITERATIONS. lia.
  - apply contains_spec. reflexivity.
  - intros j Hj. apply contains_false.
    assert (Hcases : j = 1 \/ j = 2) by lia.
    destruct Hcases as [-> | ->]; reflexivity.
Defined.

Lemma ralph_exhausts_after_max_iterations_witness :
  exists t w,
    ralph_sh Examples.never_done "fix it" = Some (t, w)
    /\ t = Exhausted /\ exit_code t <> 0
    /\ length (calls w) = MAX_ITERATIONS.
Proof.
  apply (proj1 (proj2 ralph_exhausts_after_max_iterations) Examples.never_done "fix it").
  intros i _. apply contains_false. reflexivity.
Defined.

Lemma completion_test_exact_witness :
  marker_found "All green. <promise>COMPLETE</promise> Bye." = true.
Proof.
  apply (proj1 completion_test_exact).
  exists "All green. ", " Bye.". reflexivity.
Defined.

End RalphFacts.

(** ** run_gauntlet.sh: the jobs and the report *)

Module GauntletFacts.
Import Text Bash Disk Gauntlet TextFacts BashFacts.

Lemma filter_all {A} (P : A -> Prop) `{forall x, Decision (P x)} (l : list A) :
  Forall P l -> filter P l = l.
Proof.
  induction 1 as [|x l Hx _ IH]; [reflexivity|].
  rewrite filter_cons_True by exact Hx. f_equal. exact IH.
Qed.

Lemma filter_none {A} (P : A -> Prop) `{forall x, Decision (P x)} (l : list A) :
  Forall (fun x => ~ P x) l -> filter P l = [].
Proof.
  induction 1 as [|x l Hx _ IH]; [reflexivity|].
  rewrite filter_cons_False by exact Hx. exact IH.
Qed.

Section Interleaved.
Variable disk : gmap string node.
Variable gather : string -> string.
Variable date : string.
Variable claude : string -> nat -> outcome.
Variable rs : list reviewer.
Variable args : list string.

Local Abbreviation step := (Gauntlet.step disk gather claude rs args).
Local Abbreviation result_of := (Gauntlet.result_of disk gather claude args).
Local Abbreviation launched := (Gauntlet.launched date rs args).
Local Abbreviation preamble := (Gauntlet.preamble date args).
Local Abbreviation consistent := (Gauntlet.consistent disk gather date claude rs args).

Lemma consistent_launched : consistent launched.
Proof.
  split; [apply length_replicate|]. split; [reflexivity|].
  intros j r Hr. exists (JobState 0 EmptyString).
  split; [apply lookup_replicate_2; eapply lookup_lt_Some; eauto|].
  simpl. split; [lia|]. split; [lia|]. reflexivity.
Qed.

(** Job [i] moves on to step [k], having appended [extra], all its own
    and the next part of its section. *)
Lemma consistent_advance w i r s k res extra rep term :
  consistent w -> rs !! i = Some r -> jobs w !! i = Some s ->
  k <= 4 -> (1 <= k -> res = result_of i r) ->
  Forall (fun a => who a = Job i) extra ->
  take (k - 1) (section_of i r (result_of i r))
  = take (pc s - 1) (section_of i r (result_of i r)) ++ extra ->
  rep = report w ++ extra ->
  consistent (World rep term (<[i := JobState k res]> (jobs w))).
Proof.
  intros (Hlen & Hscript & Hjobs) Hr Hs Hk Hres Hown Htake ->.
  assert (Hi : i < length (jobs w)) by (eapply lookup_lt_Some; eauto).
  split; [simpl; rewrite length_insert; exact Hlen|]. split.
  - simpl. rewrite filter_app, Hscript, filter_none; [apply app_nil_r|].
    eapply Forall_impl; [exact Hown|]. intros a Ha. rewrite Ha. discriminate.
  - intros j r' Hr'. simpl. destruct (decide (j = i)) as [->|Hne].
    + assert (r' = r) as -> by congruence.
      exists (JobState k res). rewrite list_lookup_insert_eq by exact Hi.
      split; [reflexivity|]. simpl. split; [exact Hk|]. split; [exact Hres|].
      destruct (Hjobs i r Hr) as (s' & Hs' & _ & _ & Happ).
      assert (s' = s) as -> by congruence.
      unfold appends_of in *. rewrite filter_app, Happ, filter_all by exact Hown.
      symmetry. exact Htake.
    + destruct (Hjobs j r' Hr') as (s' & Hs' & Hpc' & Hres' & Happ').
      exists s'. rewrite list_lookup_insert_ne by congruence.
      split; [exact Hs'|]. split; [exact Hpc'|]. split; [exact Hres'|].
      unfold appends_of in *. rewrite filter_app, Happ', filter_none; [apply app_nil_r|].
      eapply Forall_impl; [exact Hown|]. intros a Ha. rewrite Ha. congruence.
Qed.

(** A step of job [i] keeps the run consistent; only job [i] moves, by
    one step unless it has finished. *)
Lemma consistent_step w i :
  consistent w ->
  consistent (step w i)
  /\ forall j, j < length rs ->
       pc_at (step w i) j
       = if decide (j = i) then Nat.min 4 (S (pc_at w j)) else pc_at w j.
Proof.
  intros Hw. pose proof Hw as (Hlen & Hscript & Hjobs).
  unfold Gauntlet.step.
  destruct (rs !! i) as [r|] eqn:Hr.
  2:{ split; [exact Hw|]. intros j Hj.
      destruct (decide (j = i)) as [->|]; [|reflexivity].
      apply lookup_ge_None in Hr. exfalso. exact (Nat.lt_irrefl _ (Nat.lt_le_trans _ _ _ Hj Hr)). }
  destruct (Hjobs i r Hr) as (s & Hs & Hpc & Hres & Happ). rewrite Hs.
  assert (Hi : i < length (jobs w)) by (eapply lookup_lt_Some; eauto).
  assert (Hmove : forall k res rep term,
            k = S (pc s) -> pc s < 4 ->
            forall j, j < length rs ->
              pc_at (World rep term (<[i := JobState k res]> (jobs w))) j
              = if decide (j = i) then Nat.min 4 (S (pc_at w j)) else pc_at w j).
  { intros k res rep term -> Hk4 j Hj. unfold pc_at. cbn [jobs].
    destruct (decide (j = i)) as [->|Hne].
    - rewrite list_lookup_insert_eq, Hs by assumption. cbn [pc]. lia.
    - rewrite list_lookup_insert_ne by congruence. reflexivity. }
  destruct (pc s) as [|[|[|[|p]]]] eqn:Hp.
  - split; [|apply Hmove; lia].
    apply (consistent_advance w i r s 1 (result_of i r) []);
      [exact Hw | exact Hr | exact Hs | lia | reflexivity | constructor
      | rewrite Hp; reflexivity | symmetry; apply app_nil_r].
  - split; [|apply Hmove; lia].
    apply (consistent_advance w i r s 2 (result s) [Append (Job i) (echo (heading r))]);
      [exact Hw | exact Hr | exact Hs | lia | intros _; apply Hres; lia
      | repeat constructor | rewrite Hp; reflexivity | reflexivity].
  - split; [|apply Hmove; lia].
    apply (consistent_advance w i r s 3 (result s) [Append (Job i) (echo (result s))]);
      [exact Hw | exact Hr | exact Hs | lia | intros _; apply Hres; lia
      | repeat constructor | rewrite Hp, Hres by lia; reflexivity | reflexivity].
  - split; [|apply Hmove; lia].
    apply (consistent_advance w i r s 4 (result s) [Append (Job i) (echo rule)]);
      [exact Hw | exact Hr | exact Hs | lia | intros _; apply Hres; lia
      | repeat constructor | rewrite Hp; reflexivity | reflexivity].
  - split; [exact Hw|]. intros j Hj. unfold pc_at.
    destruct (decide (j = i)) as [->|]; [|reflexivity]. rewrite Hs, Hp. lia.
Qed.

Lemma turns_cons j i sched :
  turns j (i :: sched) = (if decide (j = i) then 1 else 0) + turns j sched.
Proof.
  unfold turns. destruct (decide (j = i)) as [->|Hne].
  - rewrite filter_cons_True by reflexivity. reflexivity.
  - rewrite filter_cons_False by congruence. reflexivity.
Qed.

(** However the steps of the jobs interleave, the run stays consistent
    and each job has moved by the turns it got, up to its four steps. *)
Lemma consistent_run sched w :
  consistent w ->
  consistent (fold_left step sched w)
  /\ forall j, j < length rs ->
       pc_at (fold_left step sched w) j = Nat.min 4 (pc_at w j + turns j sched).
Proof.
  revert w. induction sched as [|i sched IH]; intros w Hw.
  - split; [exact Hw|]. intros j Hj. cbn [fold_left].
    destruct Hw as (_ & _ & Hjobs).
    destruct (lookup_lt_is_Some_2 rs j Hj) as [r Hr].
    destruct (Hjobs j r Hr) as (s & Hs & Hpc & _). unfold pc_at. rewrite Hs. change (turns j []) with 0. lia.
  - destruct (consistent_step w i Hw) as [Hw1 Hpc1].
    destruct (IH _ Hw1) as [Hw2 Hpc2].
    split; [exact Hw2|]. intros j Hj. cbn [fold_left].
    rewrite Hpc2, Hpc1, turns_cons by exact Hj.
    destruct (decide (j = i)); lia.
Qed.

(** Whatever the engine's runs were and however the jobs interleaved:
    once every job has had its turns the script ends, its own appends are
    the preamble, and what each job appended is its own section: a header,
    the answer to its own prompt, a rule. *)
Lemma sections_isolated sched :
  whole_run (length rs) sched ->
  exists w,
    run_gauntlet disk gather date claude rs args sched = Some w
    /\ filter (fun a => who a = Script) (report w) = preamble
    /\ forall j r, rs !! j = Some r ->
         appends_of j (report w) = section_of j r (result_of j r).
Proof.
  intros Hwhole. unfold run_gauntlet.
  destruct (consistent_run sched launched consistent_launched) as [Hw Hpc].
  set (w := fold_left step sched launched) in *.
  destruct Hw as (Hlen & Hscript & Hjobs).
  assert (Hdone : forall j r, rs !! j = Some r ->
            exists s, jobs w !! j = Some s /\ pc s = 4
              /\ appends_of j (report w) = section_of j r (result_of j r)).
  { intros j r Hr. destruct (Hjobs j r Hr) as (s & Hs & Hle & _ & Happ).
    assert (Hj : j < length rs) by (eapply lookup_lt_Some; eauto).
    specialize (Hpc j Hj). specialize (Hwhole j Hj).
    unfold pc_at in Hpc. rewrite Hs in Hpc.
    assert (H4 : pc s = 4) by lia.
    exists s. split; [exact Hs|]. split; [exact H4|].
    rewrite Happ, H4. reflexivity. }
  assert (Hfin : forallb finished (jobs w) = true).
  { apply forallb_forall. intros s Hs.
    apply list_elem_of_In, list_elem_of_lookup in Hs as [j Hj].
    assert (Hlt : j < length rs) by (rewrite <- Hlen; eapply lookup_lt_Some; eauto).
    destruct (lookup_lt_is_Some_2 rs j Hlt) as [r Hr].
    destruct (Hdone j r Hr) as (s' & Hs' & H4 & _).
    assert (s = s') as -> by congruence. unfold finished. rewrite H4. reflexivity. }
  rewrite Hfin. eexists. split; [reflexivity|]. split; [exact Hscript|].
  intros j r Hr. destruct (Hdone j r Hr) as (_ & _ & _ & Happ). exact Happ.
Qed.

End Interleaved.

Section OneAfterAnother.
Variable disk : gmap string node.
Variable gather : string -> string.
Variable date : string.
Variable claude : string -> nat -> outcome.
Variable rs : list reviewer.
Variable args : list string.

Local Abbreviation step := (Gauntlet.step disk gather claude rs args).
Local Abbreviation result_of := (Gauntlet.result_of disk gather claude args).
Local Abbreviation section_at := (Gauntlet.section_at disk gather claude rs args).
Local Abbreviation launched := (Gauntlet.launched date rs args).
Local Abbreviation preamble := (Gauntlet.preamble date args).

Lemma step_start w j r s :
  rs !! j = Some r -> jobs w !! j = Some s -> pc s = 0 ->
  report (step w j) = report w
  /\ jobs (step w j) = <[j := JobState 1 (result_of j r)]> (jobs w).
Proof.
  intros Hr Hs Hpc. unfold Gauntlet.step. rewrite Hr, Hs, Hpc. split; reflexivity.
Qed.

(** Jobs that have not started yet start: nothing is written. *)
Lemma start_all l w :
  NoDup l ->
  (forall j, j ∈ l -> exists r s, rs !! j = Some r /\ jobs w !! j = Some s /\ pc s = 0) ->
  let w' := fold_left step l w in
  report w' = report w
  /\ length (jobs w') = length (jobs w)
  /\ (forall j r, j ∈ l -> rs !! j = Some r ->
        jobs w' !! j = Some (JobState 1 (result_of j r)))
  /\ (forall j, j ∉ l -> jobs w' !! j = jobs w !! j).
Proof.
  revert w. induction l as [|i l IH]; intros w Hnd Hall; simpl.
  - split; [reflexivity|]. split; [reflexivity|]. split; [intros j r Hj; inversion Hj | reflexivity].
  - apply NoDup_cons in Hnd as [Hi Hnd].
    destruct (Hall i) as (r & s & Hr & Hs & Hpc); [left|].
    destruct (step_start w i r s Hr Hs Hpc) as [Hrep Hjobs].
    destruct (IH (step w i) Hnd) as (IH1 & IH2 & IH3 & IH4).
    { intros j Hj. destruct (Hall j) as (r' & s' & Hr' & Hs' & Hpc'); [right; exact Hj|].
      exists r', s'. repeat split; try assumption.
      rewrite Hjobs, list_lookup_insert_ne; [assumption|].
      intros ->. contradiction. }
    split; [congruence|]. split; [rewrite IH2, Hjobs; apply length_insert|].
    split.
    + intros j r' Hj Hr'. apply elem_of_cons in Hj as [->|Hj]; [|auto].
      rewrite IH4 by assumption. rewrite Hjobs.
      assert (r' = r) as -> by congruence.
      apply list_lookup_insert_eq. eapply lookup_lt_Some; eauto.
    + intros j Hj. apply not_elem_of_cons in Hj as [Hne Hj].
      rewrite IH4 by assumption. rewrite Hjobs. apply list_lookup_insert_ne. congruence.
Qed.

(** A started job gets its three turns in a row: its section is appended. *)
Lemma finish_one w j r res :
  rs !! j = Some r -> jobs w !! j = Some (JobState 1 res) ->
  fold_left step [j; j; j] w
  = World (report w ++ section_of j r res) (terminal w) (<[j := JobState 4 res]> (jobs w)).
Proof.
  intros Hr Hs. assert (Hlt : j < length (jobs w)) by (eapply lookup_lt_Some; eauto).
  simpl. unfold Gauntlet.step at 3. rewrite Hr, Hs. simpl.
  unfold Gauntlet.step at 2. simpl. rewrite Hr, list_lookup_insert_eq by assumption. simpl.
  unfold Gauntlet.step. simpl. rewrite Hr, list_lookup_insert_eq by (rewrite length_insert; assumption).
  simpl. unfold set_job, append_line. simpl.
  rewrite !list_insert_insert_eq, <- !app_assoc. reflexivity.
Qed.

Lemma finish_all order w :
  NoDup order ->
  (forall j, j ∈ order -> exists r, rs !! j = Some r
                          /\ jobs w !! j = Some (JobState 1 (result_of j r))) ->
  let w' := fold_left step (flat_map (fun j => [j; j; j]) order) w in
  report w' = report w ++ flat_map section_at order
  /\ length (jobs w') = length (jobs w)
  /\ (forall j, j ∈ order -> exists s, jobs w' !! j = Some s /\ pc s = 4)
  /\ (forall j, j ∉ order -> jobs w' !! j = jobs w !! j).
Proof.
  revert w. induction order as [|i order IH]; intros w Hnd Hall.
  - simpl. rewrite app_nil_r. split; [reflexivity|]. split; [reflexivity|]. split; [intros j Hj; inversion Hj | reflexivity].
  - apply NoDup_cons in Hnd as [Hi Hnd].
    destruct (Hall i) as (r & Hr & Hs); [left|].
    change (flat_map (fun j => [j; j; j]) (i :: order))
      with ([i; i; i] ++ flat_map (fun j => [j; j; j]) order).
    rewrite fold_left_app, (finish_one w i r _ Hr Hs).
    set (w1 := World _ _ _).
    destruct (IH w1 Hnd) as (IH1 & IH2 & IH3 & IH4).
    { intros j Hj. destruct (Hall j) as (r' & Hr' & Hs'); [right; exact Hj|].
      exists r'. split; [assumption|]. unfold w1. simpl.
      rewrite list_lookup_insert_ne; [assumption|]. intros ->. contradiction. }
    cbv zeta. split.
    + rewrite IH1. unfold w1. simpl. unfold Gauntlet.section_at at 2. rewrite Hr.
      rewrite <- app_assoc. reflexivity.
    + split; [rewrite IH2; unfold w1; simpl; apply length_insert|]. split.
      * intros j Hj. apply elem_of_cons in Hj as [->|Hj]; [|auto].
        rewrite IH4 by assumption. unfold w1. simpl.
        rewrite list_lookup_insert_eq by (eapply lookup_lt_Some; eauto). eauto.
      * intros j Hj. apply not_elem_of_cons in Hj as [Hne Hj].
        rewrite IH4 by assumption. unfold w1. simpl.
        apply list_lookup_insert_ne. congruence.
Qed.

Lemma all_finished (l : list job) :
  (forall j, j < length l -> exists s, l !! j = Some s /\ pc s = 4) ->
  forallb finished l = true.
Proof.
  intros H. apply forallb_forall. intros s Hs.
  apply list_elem_of_In, list_elem_of_lookup in Hs as [j Hj].
  destruct (H j) as (s' & Hs' & Hpc); [eapply lookup_lt_Some; eauto|].
  assert (s = s') as -> by congruence. unfold finished. rewrite Hpc. reflexivity.
Qed.

(** All jobs start, then they answer and write one after another: the
    script ends, and the report is the preamble and then the sections in
    the order in which the jobs wrote them. *)
Lemma run_one_after_another order :
  completion_order (length rs) order ->
  exists w,
    run_gauntlet disk gather date claude rs args (one_after_another (length rs) order) = Some w
    /\ report w = preamble ++ flat_map section_at order.
Proof.
  intros [Hnd Hcover]. unfold run_gauntlet, one_after_another.
  rewrite fold_left_app.
  destruct (start_all (seq 0 (length rs)) launched) as (S1 & S2 & S3 & S4).
  { apply NoDup_seq. }
  { intros j Hj. apply elem_of_seq in Hj as [_ Hj]. simpl in Hj.
    destruct (lookup_lt_is_Some_2 rs j Hj) as [r Hr].
    exists r, (JobState 0 EmptyString). repeat split; [assumption|].
    simpl. apply lookup_replicate_2. assumption. }
  set (w1 := fold_left step (seq 0 (length rs)) launched) in *.
  destruct (finish_all order w1 Hnd) as (F1 & F2 & F3 & F4).
  { intros j Hj. apply Hcover in Hj.
    destruct (lookup_lt_is_Some_2 rs j Hj) as [r Hr].
    exists r. split; [assumption|]. apply S3; [|assumption].
    apply elem_of_seq. simpl. lia. }
  set (w2 := fold_left step _ w1) in *.
  rewrite all_finished.
  - eexists. split; [reflexivity|]. simpl. rewrite F1, S1. reflexivity.
  - intros j Hj. apply F3, Hcover. rewrite F2, S2 in Hj. simpl in Hj.
    rewrite length_replicate in Hj. assumption.
Qed.

End OneAfterAnother.

Lemma first_seen_sections seen order :
  NoDup order -> (forall j, j ∈ order -> j ∉ seen) ->
  first_seen seen (flat_map (fun j => [j; j; j]) order) = order.
Proof.
  revert seen. induction order as [|i order IH]; intros seen Hnd Hseen; [reflexivity|].
  apply NoDup_cons in Hnd as [Hi Hnd]. simpl.
  destruct (decide (i ∈ seen)) as [Hin|_]; [exfalso; apply (Hseen i); [left | assumption]|].
  destruct (decide (i ∈ i :: seen)) as [_|Hn]; [|exfalso; apply Hn; left].
  f_equal. apply IH; [assumption|].
  intros j Hj Hjs. apply elem_of_cons in Hjs as [->|Hjs]; [contradiction|].
  apply (Hseen j); [right|]; assumption.
Qed.

Lemma omap_sections (disk : gmap string node) gather claude rs args order :
  (forall j, j ∈ order -> is_Some (rs !! j)) ->
  omap job_of (flat_map (Gauntlet.section_at disk gather claude rs args) order)
  = flat_map (fun j => [j; j; j]) order.
Proof.
  induction order as [|i order IH]; intros Hall; [reflexivity|].
  simpl. rewrite omap_app, IH.
  - f_equal. unfold Gauntlet.section_at. destruct (Hall i) as [r ->]; [left|]. reflexivity.
  - intros j Hj. apply Hall. right. exact Hj.
Qed.

Lemma echo_plain s : is_echo_option s = false -> echo s = s +:+ NL.
Proof. unfold echo. intros ->. reflexivity. Qed.

Lemma echo_text c s : c <> "-"%char -> echo (String c s) = String c s +:+ NL.
Proof.
  intros Hc. apply echo_plain.
  destruct c as [[] [] [] [] [] [] [] []]; try reflexivity. congruence.
Qed.

Lemma echo_heading r : echo (heading r) = heading r +:+ NL.
Proof. unfold heading. rewrite str_app_cons. apply echo_text. discriminate. Qed.

Lemma concat_app l1 l2 : concat (l1 ++ l2) = concat l1 +:+ concat l2.
Proof.
  induction l1 as [|s l1 IH]; [reflexivity|].
  simpl. rewrite IH, str_app_assoc. reflexivity.
Qed.

Lemma content_app r1 r2 : content (r1 ++ r2) = content r1 +:+ content r2.
Proof. unfold content. rewrite map_app. apply concat_app. Qed.

Lemma content_section j r res :
  is_echo_option res = false ->
  content (section_of j r res) = section_text r res.
Proof.
  intros Hres. unfold content, section_of, section_text. simpl.
  rewrite echo_heading, (echo_plain res Hres), str_app_nil_r, !str_app_assoc.
  reflexivity.
Qed.

Lemma content_preamble date args :
  content (Gauntlet.preamble date args)
  = "# Council of Agents Report" +:+ NL
    +:+ "Target: " +:+ TARGET_DIR args +:+ NL
    +:+ "Date: " +:+ captured date +:+ NL
    +:+ rule +:+ NL.
Proof.
  unfold content, Gauntlet.preamble. simpl.
  rewrite (str_app_cons _ _ (TARGET_DIR args)), (str_app_cons _ _ (captured date)).
  rewrite !echo_text by discriminate.
  rewrite <- !str_app_cons, str_app_nil_r, !str_app_assoc. reflexivity.
Qed.

Lemma architect_first_order : completion_order (length reviewers) Examples.architect_first.
Proof.
  split.
  - unfold Examples.architect_first.
    repeat (apply NoDup_cons_2; [rewrite ?elem_of_cons, elem_of_nil; lia|]).
    apply NoDup_nil_2.
  - intros j. unfold Examples.architect_first. simpl.
    rewrite !elem_of_cons, elem_of_nil. lia.
Qed.

(** C4, as the script has it.  When the jobs answer and write one after
    another, the report is the preamble followed by the sections in the
    order in which the jobs wrote them, whatever the order of the reviewer
    list: the order of the sections is the order of completion. *)
Theorem sections_follow_completion_order
    (disk : gmap string node) gather date claude rs args order :
  completion_order (length rs) order ->
  exists w,
    run_gauntlet disk gather date claude rs args (one_after_another (length rs) order) = Some w
    /\ report w = Gauntlet.preamble date args
                  ++ flat_map (Gauntlet.section_at disk gather claude rs args) order
    /\ section_order (report w) = order.
Proof.
  intros Horder.
  destruct (run_one_after_another disk gather date claude rs args order Horder)
    as (w & Hrun & Hrep).
  exists w. split; [exact Hrun|]. split; [exact Hrep|].
  destruct Horder as [Hnd Hcover].
  unfold section_order. rewrite Hrep, omap_app, omap_sections.
  - simpl. apply first_seen_sections; [assumption|]. intros j _ Hj. inversion Hj.
  - intros j Hj. apply lookup_lt_is_Some_2, Hcover, Hj.
Qed.

Lemma sections_follow_completion_order_witness :
  exists w,
    run_gauntlet ∅ Examples.no_sources Examples.some_date Examples.content_engine
      reviewers [] (one_after_another (length reviewers) Examples.architect_first) = Some w
    /\ report w = Gauntlet.preamble Examples.some_date []
                  ++ flat_map (Gauntlet.section_at ∅ Examples.no_sources
                                 Examples.content_engine reviewers [])
                       Examples.architect_first
    /\ section_order (report w) = Examples.architect_first.
Proof.
  apply sections_follow_completion_order. exact architect_first_order.
Defined.

(** C4, as the specification words it, fails: with the Architect's job
    the first to answer, the Architect's section is the first of the
    report, before the QA Engineer's. *)
Lemma registration_order_refuted :
  ~ (forall sched w,
       run_gauntlet_sh ∅ Examples.no_sources Examples.some_date Examples.content_engine
         [] sched = Some w ->
       section_order (report w) = seq 0 (length reviewers)).
Proof.
  intros H.
  specialize (H (one_after_another 4 Examples.architect_first)).
  vm_compute in H. specialize (H _ eq_refl). discriminate H.
Qed.

(** C8, as the script has it.  When the jobs answer and write one after
    another, with answers that [echo] does not take for options, the
    report is the title line, the target line, the date line and a rule,
    then for each job in the order of completion: its header line (the
    two hashes, the source's glyph, [Agent:] and the name), its captured
    output as it is, and a rule. *)
Theorem report_layout (disk : gmap string node) gather date claude rs args order :
  completion_order (length rs) order ->
  (forall j r, rs !! j = Some r ->
     is_echo_option (Gauntlet.result_of disk gather claude args j r) = false) ->
  exists w,
    run_gauntlet disk gather date claude rs args (one_after_another (length rs) order) = Some w
    /\ content (report w)
       = "# Council of Agents Report" +:+ NL
         +:+ "Target: " +:+ TARGET_DIR args +:+ NL
         +:+ "Date: " +:+ captured date +:+ NL
         +:+ rule +:+ NL
         +:+ concat (map (fun j =>
               match rs !! j with
               | Some r => section_text r (Gauntlet.result_of disk gather claude args j r)
               | None => EmptyString
               end) order).
Proof.
  intros Horder Hplain.
  destruct (run_one_after_another disk gather date claude rs args order Horder)
    as (w & Hrun & Hrep).
  exists w. split; [exact Hrun|].
  rewrite Hrep, content_app, content_preamble, !str_app_assoc.
  do 10 f_equal. clear Hrep Hrun Horder.
  induction order as [|i order IH]; [reflexivity|].
  simpl. rewrite content_app, IH. f_equal.
  unfold Gauntlet.section_at. destruct (rs !! i) as [r|] eqn:Hr; [|reflexivity].
  apply content_section, Hplain, Hr.
Qed.

Lemma report_layout_witness :
  exists w,
    run_gauntlet ∅ Examples.no_sources Examples.some_date Examples.content_engine
      reviewers ["lib"] (one_after_another (length reviewers) Examples.architect_first) = Some w
    /\ content (report w)
       = "# Council of Agents Report" +:+ NL
         +:+ "Target: " +:+ TARGET_DIR ["lib"] +:+ NL
         +:+ "Date: " +:+ captured Examples.some_date +:+ NL
         +:+ rule +:+ NL
         +:+ concat (map (fun j =>
               match reviewers !! j with
               | Some r => section_text r
                             (Gauntlet.result_of ∅ Examples.no_sources
                                Examples.content_engine ["lib"] j r)
               | None => EmptyString
               end) Examples.architect_first).
Proof.
  apply report_layout; [exact architect_first_order|].
  intros j r _. reflexivity.
Defined.

(** C8, as the specification words it, fails: the header line of a
    section is not [## Agent: <name>]; no line of the report is. *)
Lemma heading_not_as_specified :
  match run_gauntlet_sh ∅ Examples.no_sources Examples.some_date Examples.content_engine
          [] (one_after_another 4 [0; 1; 2; 3]) with
  | Some w =>
      content (appends_of 0 (report w))
        <> specified_section (Reviewer "QA Engineer" ".council/prompts/01_test_qa.md")
             "NO ISSUES FOUND"
      /\ content (appends_of 0 (report w))
         = section_text (Reviewer "QA Engineer" ".council/prompts/01_test_qa.md")
             "NO ISSUES FOUND"
      /\ contains "## Agent: " (content (report w)) = false
  | None => False
  end.
Proof.
  vm_compute. split; [discriminate|]. split; reflexivity.
Qed.

(** C5, at an engine run that fails with the two characters [-n] on its
    error stream.  The report still has its four sections, in the order
    the jobs wrote them, and the sections of the three other reviewers are
    what they are when no run fails; but the section of the failed run has
    no body: [echo "$result"] took the text for an option, and the text of
    the failure is nowhere in the report. *)
Theorem failure_text_read_as_option_is_lost :
  match run_gauntlet_sh ∅ Examples.no_sources Examples.some_date Examples.failing_engine
          [] Examples.in_turn,
        run_gauntlet_sh ∅ Examples.no_sources Examples.some_date Examples.content_engine
          [] Examples.in_turn with
  | Some w, Some w0 =>
      (forall prompt,
         exit_status (Examples.failing_engine prompt 1) = 1
         /\ written (Examples.failing_engine prompt 1) = [(Stderr, "-n" +:+ NL)]
         /\ capture (Examples.failing_engine prompt 1) = "-n")
      /\ section_order (report w) = [0; 1; 2; 3]
      /\ appends_of 0 (report w) = appends_of 0 (report w0)
      /\ appends_of 2 (report w) = appends_of 2 (report w0)
      /\ appends_of 3 (report w) = appends_of 3 (report w0)
      /\ map text (appends_of 1 (report w))
         = [ heading (Reviewer "Architect" ".council/prompts/02_structure_architect.md")
               +:+ NL;
             EmptyString;
             rule +:+ NL ]
      /\ contains "-n" (content (report w)) = false
  | _, _ => False
  end.
Proof. vm_compute. repeat split. Qed.

End GauntletFacts.

(** ** run_review.sh: what is reviewed, how the session ends, what the fixer is asked *)

Module ReviewFacts.
Import Text Bash Disk Review TextFacts BashFacts.

Lemma last_line_app s t :
  has_char nl t = false -> last_line (s +:+ NL +:+ t) = t.
Proof.
  intros Ht. induction s as [|a s IH].
  - change (NL +:+ t) with (String nl t). simpl. rewrite Ht.
    destruct (decide (nl = nl)); [reflexivity | contradiction].
  - rewrite str_app_cons. simpl.
    rewrite has_char_app. change (NL +:+ t) with (String nl t).
    replace (has_char nl (String nl t)) with true.
    + rewrite orb_true_r. exact IH.
    + simpl. destruct (decide (nl = nl)); [reflexivity | contradiction].
Qed.

Lemma unlines_snoc l s x :
  unlines ((s :: l) ++ [x]) = unlines (s :: l) +:+ NL +:+ x.
Proof.
  revert s. induction l as [|y l IH]; intros s; [reflexivity|].
  change (unlines ((s :: y :: l) ++ [x])) with (s +:+ NL +:+ unlines ((y :: l) ++ [x])).
  rewrite IH. change (unlines (s :: y :: l)) with (s +:+ NL +:+ unlines (y :: l)).
  rewrite !str_app_assoc. reflexivity.
Qed.

(** Whatever the report, the prompt ends with the sentence that asks for
    the marker. *)
Lemma FIXER_PROMPT_last_line REPORT_CONTENT :
  last_line (FIXER_PROMPT REPORT_CONTENT)
  = "When ALL items are addressed and tests pass, output exactly: "
    +:+ Ralph.COMPLETION_MARKER +:+ ".".
Proof.
  unfold FIXER_PROMPT.
  match goal with
  | |- last_line (unlines ?l) = _ =>
      let l' := eval cbv [removelast] in (removelast l) in
      change l with (l' ++ [ "When ALL items are addressed and tests pass, output exactly: <promise>COMPLETE</promise>." ])
  end.
  rewrite unlines_snoc. apply last_line_app. reflexivity.
Qed.

Lemma instructed_literal_is_marker REPORT_CONTENT :
  instructed_literal (FIXER_PROMPT REPORT_CONTENT) = Some Ralph.COMPLETION_MARKER.
Proof. unfold instructed_literal. rewrite FIXER_PROMPT_last_line. reflexivity. Qed.

Section Session.
Variable disk : gmap string node.
Variable gather : string -> string.
Variable date : string.
Variable claude_review : string -> nat -> outcome.
Variable claude_fix : string -> nat -> outcome.
Variable args : list string.
Variable sched : list nat.
Variable REPLY : string.

Local Abbreviation run := (run_review_sh disk gather date claude_review claude_fix args sched REPLY).

(** The session ends whenever the review does; what it returns. *)
Lemma session_ends :
  Gauntlet.whole_run (length Gauntlet.reviewers) sched ->
  exists g,
    Gauntlet.run_gauntlet_sh disk gather date claude_review ["./src"] sched = Some g
    /\ filter (fun a => Gauntlet.who a = Gauntlet.Script) (Gauntlet.report g)
       = Gauntlet.preamble date ["./src"]
    /\ (forall j r, Gauntlet.reviewers !! j = Some r ->
          Gauntlet.appends_of j (Gauntlet.report g)
          = Gauntlet.section_of j r
              (Gauntlet.result_of disk gather claude_review ["./src"] j r))
    /\ exists res, run = Some res /\ review res = g
       /\ (accepts REPLY = false -> final_status res = 1 /\ fixer res = None)
       /\ (accepts REPLY = true ->
           exists t w, fixer res = Some (t, w)
             /\ Ralph.ralph_sh claude_fix (prompt_of g) = Some (t, w)
             /\ final_status res = Ralph.exit_code t
             /\ (t = Ralph.Completed <->
                 exists k, 1 <= k <= Ralph.MAX_ITERATIONS
                   /\ occurs_in Ralph.COMPLETION_MARKER
                        (Ralph.output_at claude_fix (prompt_of g) k))).
Proof.
  intros Hwhole.
  destruct (GauntletFacts.sections_isolated disk gather date claude_review
              Gauntlet.reviewers ["./src"] sched Hwhole) as (g & Hg & Hscript & Hsec).
  exists g. split; [exact Hg|]. split; [exact Hscript|]. split; [exact Hsec|].
  unfold run_review_sh, gauntlet_args, Gauntlet.run_gauntlet_sh. rewrite Hg.
  destruct (accepts REPLY) eqn:Hacc; simpl.
  - destruct (RalphFacts.for_loop_status claude_fix (prompt_of g)
                Ralph.MAX_ITERATIONS (S Ralph.MAX_ITERATIONS) 1 (Ralph.start)
                ltac:(unfold Ralph.MAX_ITERATIONS; lia) ltac:(lia))
      as (t & w & Hrun & Hiff).
    fold (prompt_of g). unfold Ralph.ralph_sh, Ralph.run_with. rewrite Hrun.
    eexists. split; [reflexivity|]. split; [reflexivity|].
    split; [discriminate|]. intros _. exists t, w. repeat split; try reflexivity.
    + apply Hiff.
    + apply Hiff.
  - eexists. split; [reflexivity|]. split; [reflexivity|].
    split; [intros _; split; reflexivity | discriminate].
Qed.

End Session.

Lemma in_turn_whole : Gauntlet.whole_run (length Gauntlet.reviewers) Examples.in_turn.
Proof.
  intros j Hj. simpl in Hj.
  destruct j as [|[|[|[|j]]]]; [vm_compute; lia ..|lia].
Qed.

(** C6, as the script has it.  The session's exit status is 0 exactly
    when the user accepted and the fixer loop saw the marker within its
    iterations; it is 1 otherwise, that is, when the user declined (the
    fixer never ran) or when the loop ran out of iterations. *)
Theorem driver_exit_status
    (disk : gmap string node) gather date claude_review claude_fix args sched REPLY :
  Gauntlet.whole_run (length Gauntlet.reviewers) sched ->
  exists res,
    run_review_sh disk gather date claude_review claude_fix args sched REPLY = Some res
    /\ (final_status res = 0 <->
        accepts REPLY = true
        /\ exists k, 1 <= k <= Ralph.MAX_ITERATIONS
             /\ occurs_in Ralph.COMPLETION_MARKER
                  (Ralph.output_at claude_fix (prompt_of (review res)) k))
    /\ (final_status res = 0 \/ final_status res = 1)
    /\ (accepts REPLY = false -> final_status res = 1 /\ fixer res = None)
    /\ (accepts REPLY = true ->
        (forall k, 1 <= k <= Ralph.MAX_ITERATIONS ->
           ~ occurs_in Ralph.COMPLETION_MARKER
               (Ralph.output_at claude_fix (prompt_of (review res)) k)) ->
        final_status res = 1).
Proof.
  intros Hwhole.
  destruct (session_ends disk gather date claude_review claude_fix args sched REPLY Hwhole)
    as (g & _ & _ & _ & res & Hrun & <- & Hno & Hyes).
  exists res. split; [exact Hrun|].
  destruct (accepts REPLY) eqn:Hacc.
  - destruct (Hyes eq_refl) as (t & w & _ & _ & Hstatus & Hiff). rewrite Hstatus.
    repeat split.
    + destruct t; [apply Hiff; reflexivity | discriminate].
    + intros [_ Hk]. apply Hiff in Hk as ->. reflexivity.
    + destruct t; [left | right]; reflexivity.
    + discriminate.
    + discriminate.
    + intros _ Hnone. destruct t; [|reflexivity].
      destruct (proj1 Hiff eq_refl) as (k & Hk & Hocc). destruct (Hnone k Hk Hocc).
  - destruct (Hno eq_refl) as [Hstatus Hfix]. rewrite Hstatus.
    repeat split; try discriminate; try assumption.
    + intros [H _]. discriminate H.
    + right. reflexivity.
Qed.

Lemma driver_exit_status_witness :
  exists res,
    run_review_sh ∅ Examples.no_sources Examples.some_date Examples.content_engine
      Examples.third_time_lucky [] Examples.in_turn "y" = Some res
    /\ (final_status res = 0 <->
        accepts "y" = true
        /\ exists k, 1 <= k <= Ralph.MAX_ITERATIONS
             /\ occurs_in Ralph.COMPLETION_MARKER
                  (Ralph.output_at Examples.third_time_lucky (prompt_of (review res)) k))
    /\ (final_status res = 0 \/ final_status res = 1)
    /\ (accepts "y" = false -> final_status res = 1 /\ fixer res = None)
    /\ (accepts "y" = true ->
        (forall k, 1 <= k <= Ralph.MAX_ITERATIONS ->
           ~ occurs_in Ralph.COMPLETION_MARKER
               (Ralph.output_at Examples.third_time_lucky (prompt_of (review res)) k)) ->
        final_status res = 1).
Proof. apply driver_exit_status. exact in_turn_whole. Defined.

(** C6, as the specification words it, fails: the user declines and the
    exit status is 1, not 0. *)
Lemma declining_is_not_a_clean_exit :
  ~ (forall REPLY res,
       accepts REPLY = false ->
       run_review_sh ∅ Examples.no_sources Examples.some_date Examples.content_engine
         Examples.third_time_lucky [] Examples.in_turn REPLY = Some res ->
       final_status res = 0).
Proof.
  intros H.
  destruct (run_review_sh ∅ Examples.no_sources Examples.some_date Examples.content_engine
              Examples.third_time_lucky [] Examples.in_turn "n") as [res|] eqn:E;
    [|vm_compute in E; discriminate E].
  specialize (H "n" res eq_refl E). vm_compute in E. injection E as <-.
  discriminate H.
Qed.

(** C7, as the scripts have it.  [run_review.sh] gives [run_gauntlet.sh]
    the target [./src] whatever its own arguments are: that is the target
    the report names and the one whose sources the reviewers are given.
    It is [run_gauntlet.sh] that takes a target as its first argument,
    with [.] for one that is missing or empty. *)
Theorem driver_reviews_src
    (disk : gmap string node) gather date claude_review claude_fix args sched REPLY :
  Gauntlet.whole_run (length Gauntlet.reviewers) sched ->
  exists res,
    run_review_sh disk gather date claude_review claude_fix args sched REPLY = Some res
    /\ Gauntlet.run_gauntlet_sh disk gather date claude_review ["./src"] sched
       = Some (review res)
    /\ filter (fun a => Gauntlet.who a = Gauntlet.Script) (Gauntlet.report (review res))
       = [ Gauntlet.Append Gauntlet.Script ("# Council of Agents Report" +:+ NL);
           Gauntlet.Append Gauntlet.Script ("Target: ./src" +:+ NL);
           Gauntlet.Append Gauntlet.Script (echo ("Date: " +:+ captured date));
           Gauntlet.Append Gauntlet.Script (Gauntlet.rule +:+ NL) ]
    /\ (forall j r, Gauntlet.reviewers !! j = Some r ->
          Gauntlet.appends_of j (Gauntlet.report (review res))
          = Gauntlet.section_of j r
              (Gauntlet.result_of disk gather claude_review ["./src"] j r))
    /\ Gauntlet.CODE_CONTEXT gather ["./src"] = captured (gather "./src")
    /\ Gauntlet.TARGET_DIR [] = "."
    /\ Gauntlet.TARGET_DIR [EmptyString] = "."
    /\ (forall a rest, a <> EmptyString -> Gauntlet.TARGET_DIR (a :: rest) = a).
Proof.
  intros Hwhole.
  destruct (session_ends disk gather date claude_review claude_fix args sched REPLY Hwhole)
    as (g & Hg & Hscript & Hsec & res & Hrun & <- & _).
  exists res. split; [exact Hrun|]. split; [exact Hg|].
  split; [exact Hscript|]. split; [exact Hsec|].
  repeat split. intros a rest Ha. simpl.
  destruct (decide (a = EmptyString)); [contradiction | reflexivity].
Qed.

Lemma driver_reviews_src_witness :
  exists res,
    run_review_sh ∅ Examples.no_sources Examples.some_date Examples.content_engine
      Examples.never_done ["lib"] Examples.in_turn "n" = Some res
    /\ Gauntlet.run_gauntlet_sh ∅ Examples.no_sources Examples.some_date
         Examples.content_engine ["./src"] Examples.in_turn = Some (review res)
    /\ filter (fun a => Gauntlet.who a = Gauntlet.Script) (Gauntlet.report (review res))
       = [ Gauntlet.Append Gauntlet.Script ("# Council of Agents Report" +:+ NL);
           Gauntlet.Append Gauntlet.Script ("Target: ./src" +:+ NL);
           Gauntlet.Append Gauntlet.Script (echo ("Date: " +:+ captured Examples.some_date));
           Gauntlet.Append Gauntlet.Script (Gauntlet.rule +:+ NL) ]
    /\ (forall j r, Gauntlet.reviewers !! j = Some r ->
          Gauntlet.appends_of j (Gauntlet.report (review res))
          = Gauntlet.section_of j r
              (Gauntlet.result_of ∅ Examples.no_sources Examples.content_engine
                 ["./src"] j r))
    /\ Gauntlet.CODE_CONTEXT Examples.no_sources ["./src"]
       = captured (Examples.no_sources "./src")
    /\ Gauntlet.TARGET_DIR [] = "."
    /\ Gauntlet.TARGET_DIR [EmptyString] = "."
    /\ (forall a rest, a <> EmptyString -> Gauntlet.TARGET_DIR (a :: rest) = a).
Proof. apply driver_reviews_src. exact in_turn_whole. Defined.

(** C7, as the specification words it, fails: started with the target
    [lib], or with none, the session does not review [lib], or [.]: the
    report names [./src]. *)
Lemma driver_ignores_its_target :
  ~ (forall args res,
       run_review_sh ∅ Examples.no_sources Examples.some_date Examples.content_engine
         Examples.never_done args Examples.in_turn "n" = Some res ->
       contains ("Target: " +:+ Gauntlet.TARGET_DIR args +:+ NL)
         (Gauntlet.content (Gauntlet.report (review res))) = true).
Proof.
  intros H.
  destruct (run_review_sh ∅ Examples.no_sources Examples.some_date Examples.content_engine
              Examples.never_done ["lib"] Examples.in_turn "n") as [res|] eqn:E;
    [|vm_compute in E; discriminate E].
  specialize (H ["lib"] res E). vm_compute in E. injection E as <-.
  vm_compute in H. discriminate H.
Qed.

(** C9.  Whatever the report, the literal the fixer prompt asks the
    engine to print is the marker the loop looks for, character for
    character; so an engine that prints what the prompt asks for, in any
    iteration of the budget, ends the loop Completed with exit status 0. *)
Theorem fixer_prompt_asks_for_the_marker :
  (forall REPORT_CONTENT,
     instructed_literal (FIXER_PROMPT REPORT_CONTENT) = Some Ralph.COMPLETION_MARKER)
  /\ Ralph.COMPLETION_MARKER = "<promise>COMPLETE</promise>"
  /\ contains ("COMPLETION_MARKER=" +:+ dq +:+ Ralph.COMPLETION_MARKER +:+ dq +:+ NL)
       Installer.ralph_sh_text = true
  /\ contains ("output exactly: " +:+ Ralph.COMPLETION_MARKER +:+ "." +:+ dq +:+ NL)
       Installer.run_review_sh_text = true
  /\ (forall claude REPORT_CONTENT literal k,
        instructed_literal (FIXER_PROMPT REPORT_CONTENT) = Some literal ->
        1 <= k <= Ralph.MAX_ITERATIONS ->
        occurs_in literal (Ralph.output_at claude (FIXER_PROMPT REPORT_CONTENT) k) ->
        exists t w,
          Ralph.ralph_sh claude (FIXER_PROMPT REPORT_CONTENT) = Some (t, w)
          /\ t = Ralph.Completed /\ Ralph.exit_code t = 0).
Proof.
  split; [exact instructed_literal_is_marker|]. split; [reflexivity|].
  split; [vm_compute; reflexivity|]. split; [vm_compute; reflexivity|].
  intros claude REPORT_CONTENT literal k Hlit Hk Hocc.
  rewrite instructed_literal_is_marker in Hlit. injection Hlit as <-.
  destruct (RalphFacts.for_loop_status claude (FIXER_PROMPT REPORT_CONTENT)
              Ralph.MAX_ITERATIONS (S Ralph.MAX_ITERATIONS) 1 Ralph.start
              ltac:(unfold Ralph.MAX_ITERATIONS; lia) ltac:(lia))
    as (t & w & Hrun & Hiff).
  exists t, w. split; [exact Hrun|].
  assert (Ht : t = Ralph.Completed) by (apply Hiff; exists k; split; assumption).
  split; [exact Ht|]. rewrite Ht. reflexivity.
Qed.

Lemma fixer_prompt_asks_for_the_marker_witness :
  exists t w,
    Ralph.ralph_sh Examples.third_time_lucky (FIXER_PROMPT "No findings.") = Some (t, w)
    /\ t = Ralph.Completed /\ Ralph.exit_code t = 0.
Proof.
  apply (proj2 (proj2 (proj2 (proj2 fixer_prompt_asks_for_the_marker)))
           Examples.third_time_lucky "No findings." Ralph.COMPLETION_MARKER 3).
  - apply (proj1 fixer_prompt_asks_for_the_marker).
  - unfold Ralph.MAX_ITERATIONS. lia.
  - apply contains_spec. reflexivity.
Defined.

End ReviewFacts.

(** ** The installer: what [create_council_zip] leaves on the disk *)

Module InstallerFacts.
Import Text Disk Installer.

Lemma bind_ok {A B} (a : A) (k : A -> result B) : (Ok a ≫= k) = k a.
Proof. reflexivity. Qed.

Lemma on_disk_ok f w d :
  f (disk w) = Ok d -> on_disk f w = Ok (World d (umask w) (printed w)).
Proof. intros H. unfold on_disk. rewrite H. reflexivity. Qed.

(** *** Directories that may be used *)

Lemma usable_dir (d : gmap string node) p :
  usable d p = true ->
  exists mode, d !! p = Some (Dir mode) /\ owner_w mode = true /\ owner_x mode = true.
Proof.
  unfold usable. destruct (d !! p) as [[m| |]|]; try discriminate.
  intros [Hw Hx]%andb_true_iff. eauto.
Qed.

Lemma search_usable (d : gmap string node) dirs :
  forallb (usable d) dirs = true -> search d dirs = None.
Proof.
  induction dirs as [|a dirs IH]; [reflexivity|].
  cbn [forallb search]. intros [Ha Hrest]%andb_true_iff.
  destruct (usable_dir d a Ha) as (m & -> & _ & ->). auto.
Qed.

Lemma search_insert_notin (d : gmap string node) k v dirs :
  ~ In k dirs -> search (<[k := v]> d) dirs = search d dirs.
Proof.
  induction dirs as [|a dirs IH]; [reflexivity|].
  cbn [In search]. intros Hk.
  rewrite lookup_insert_ne by (intros ->; tauto). rewrite IH by tauto. reflexivity.
Qed.

Lemma usable_parent_writable (d : gmap string node) p :
  usable d (dirname p) = true -> parent_writable d p = true.
Proof.
  intros H. unfold parent_writable.
  destruct (usable_dir d _ H) as (m & -> & -> & _). reflexivity.
Qed.

Lemma usable_insert_ne (d : gmap string node) k v p :
  k <> p -> usable (<[k := v]> d) p = usable d p.
Proof. intros H. unfold usable. rewrite lookup_insert_ne by exact H. reflexivity. Qed.

Lemma usable_insert_dir (d : gmap string node) p mode :
  usable (<[p := Dir mode]> d) p = owner_w mode && owner_x mode.
Proof. unfold usable. rewrite lookup_insert_eq. reflexivity. Qed.

Lemma dir_ok_insert_ne (d : gmap string node) um k v p :
  k <> p -> dir_ok (<[k := v]> d) um p = dir_ok d um p.
Proof. intros H. unfold dir_ok. rewrite lookup_insert_ne by exact H. reflexivity. Qed.

Lemma dir_ok_insert_dir (d : gmap string node) um p mode :
  dir_ok (<[p := Dir mode]> d) um p = owner_w mode && owner_x mode.
Proof. unfold dir_ok. rewrite lookup_insert_eq. reflexivity. Qed.

Lemma file_ok_insert_ne (d : gmap string node) um k v p :
  k <> p -> file_ok (<[k := v]> d) um p = file_ok d um p.
Proof. intros H. unfold file_ok. rewrite lookup_insert_ne by exact H. reflexivity. Qed.

Lemma dmode_insert_ne (d : gmap string node) um k v p :
  k <> p -> dmode (<[k := v]> d) um p = dmode d um p.
Proof. intros H. unfold dmode. rewrite lookup_insert_ne by exact H. reflexivity. Qed.

Lemma dmode_insert_dir (d : gmap string node) um p mode :
  dmode (<[p := Dir mode]> d) um p = mode.
Proof. unfold dmode. rewrite lookup_insert_eq. reflexivity. Qed.

Lemma mode_after_insert_ne (d : gmap string node) um k v p :
  k <> p -> mode_after p um (<[k := v]> d) = mode_after p um d.
Proof.
  intros H. unfold mode_after, kept_mode. rewrite lookup_insert_ne by exact H. reflexivity.
Qed.

(** A directory that is in order can be used once [makedirs] is through. *)
Lemma dmode_usable (d : gmap string node) um p :
  dir_ok d um p = true -> owner_w (dmode d um p) && owner_x (dmode d um p) = true.
Proof. unfold dir_ok, dmode. destruct (d !! p) as [[m| |]|]; auto; discriminate. Qed.

(** A file that is in order can be read once its entry is done. *)
Lemma mode_after_readable (d : gmap string node) um p :
  file_ok d um p = true -> owner_r (mode_after p um d) = true.
Proof.
  unfold file_ok, mode_after, kept_mode.
  destruct (endswith ".sh" p); [reflexivity|]. cbn [orb].
  destruct (d !! p) as [[m|c m|ms m]|]; try discriminate; auto;
    intros [_ H]%andb_true_iff; exact H.
Qed.

(** *** The library calls where they succeed *)

Lemma mkdir_exist_ok_dir (d : gmap string node) um name :
  reach d name = None -> usable d (dirname name) = true -> dir_ok d um name = true ->
  mkdir_exist_ok name um d = Ok (<[name := Dir (dmode d um name)]> d).
Proof.
  intros Hreach Hparent Hok. unfold mkdir_exist_ok, mkdir, isdir, dmode.
  rewrite Hreach. unfold dir_ok in Hok.
  destruct (d !! name) as [[m|c m|ms m]|] eqn:Hname; try discriminate Hok.
  - rewrite insert_id by exact Hname. reflexivity.
  - rewrite (usable_parent_writable d name Hparent). reflexivity.
Qed.

(** [makedirs] of a directory one level below the working directory's
    own entries: both levels are directories afterwards, those that were
    there as they were. *)
Lemma makedirs_nested fuel dir parent tail tail' um (d : gmap string node) :
  path_split dir = (parent, tail) -> path_split parent = (EmptyString, tail') ->
  is_empty parent = false -> is_empty tail = false -> is_empty tail' = false ->
  tail <> "." -> dir <> parent ->
  above (String.length parent) parent = [EmptyString] ->
  above (String.length dir) dir = [EmptyString; parent] ->
  usable d EmptyString = true ->
  dir_ok d um parent = true -> dir_ok d um dir = true ->
  makedirs (S (S fuel)) dir um d
  = Ok (<[dir := Dir (dmode d um dir)]> (<[parent := Dir (dmode d um parent)]> d)).
Proof.
  intros Hdir Hparent Hp Ht Ht' Hdot Hne Hup Hud Hcwd Hfp Hfd.
  assert (Hne' : parent <> EmptyString) by (intros ->; discriminate Hp).
  assert (Hdp : dirname parent = EmptyString) by (unfold dirname; rewrite Hparent; reflexivity).
  assert (Hdd : dirname dir = parent) by (unfold dirname; rewrite Hdir; reflexivity).
  assert (Hrp : reach d parent = None).
  { unfold reach. rewrite Hup. apply search_usable. cbn [forallb]. rewrite Hcwd. reflexivity. }
  assert (Hmp : mkdir_exist_ok parent um d = Ok (<[parent := Dir (dmode d um parent)]> d)).
  { apply mkdir_exist_ok_dir; [exact Hrp | rewrite Hdp; exact Hcwd | exact Hfp]. }
  assert (Hlast : mkdir_exist_ok dir um (<[parent := Dir (dmode d um parent)]> d)
                  = Ok (<[dir := Dir (dmode d um dir)]> (<[parent := Dir (dmode d um parent)]> d))).
  { assert (Hu : usable (<[parent := Dir (dmode d um parent)]> d) parent = true).
    { rewrite usable_insert_dir. apply dmode_usable, Hfp. }
    rewrite mkdir_exist_ok_dir.
    - rewrite dmode_insert_ne by congruence. reflexivity.
    - unfold reach. rewrite Hud. apply search_usable. cbn [forallb].
      rewrite usable_insert_ne by congruence. rewrite Hcwd, Hu. reflexivity.
    - rewrite Hdd. exact Hu.
    - rewrite dir_ok_insert_ne by congruence. exact Hfd. }
  cbn [makedirs]. rewrite Hdir, Ht, Hp, Ht. cbn [negb andb].
  unfold path_exists. rewrite Hrp.
  destruct (d !! parent) as [n|] eqn:Hn.
  - rewrite bool_decide_eq_true_2 by eauto. cbn [negb].
    assert (Hid : <[parent := Dir (dmode d um parent)]> d = d).
    { apply insert_id. unfold dmode, dir_ok in *. rewrite Hn in *.
      destruct n; try discriminate Hfp. reflexivity. }
    rewrite Hid in Hlast. rewrite Hid. exact Hlast.
  - rewrite bool_decide_eq_false_2 by (intros [x Hx]; discriminate Hx). cbn [negb].
    rewrite Hparent, Ht'. cbn [negb andb is_empty]. rewrite Hmp.
    rewrite bool_decide_eq_false_2 by exact Hdot. exact Hlast.
Qed.

Lemma zip_open_ok um (d : gmap string node) :
  usable d EmptyString = true -> zip_ok d ZIP = true ->
  zip_open ZIP um d = Ok (<[ZIP := Zip [] (kept_mode ZIP um d)]> d).
Proof.
  intros Hcwd Hzip.
  assert (Hreach : reach d ZIP = None).
  { unfold reach. change (above (String.length ZIP) ZIP) with [EmptyString].
    apply search_usable. cbn [forallb]. rewrite Hcwd. reflexivity. }
  assert (Hparent : parent_writable d ZIP = true) by (apply usable_parent_writable, Hcwd).
  unfold zip_open, open_w, kept_mode, zip_ok in *. rewrite Hreach.
  destruct (d !! ZIP) as [[m|c m|ms m]|]; try discriminate Hzip.
  - rewrite Hzip. cbn [negb orb andb]. destruct (owner_r m); reflexivity.
  - rewrite Hzip. cbn [negb orb andb]. destruct (owner_r m); reflexivity.
  - rewrite Hparent. reflexivity.
Qed.

(** One entry, its directories made: the file is written, made
    executable when it is a script, and added to the archive. *)
Lemma install_written path content w d1 members zmode :
  (if negb (is_empty (dirname path))
   then makedirs (S (String.length (dirname path))) (dirname path) (umask w) (disk w)
   else Ok (disk w)) = Ok d1 ->
  forallb (usable d1) (above (String.length path) path) = true ->
  usable d1 (dirname path) = true ->
  ~ In path (above (String.length path) path) ->
  ~ In ZIP (above (String.length path) path) ->
  file_ok d1 (umask w) path = true ->
  d1 !! ZIP = Some (Zip members zmode) -> path <> ZIP ->
  install (path, content) w
  = Ok (World (<[ZIP := Zip (members ++ [(arcname path, strip content)]) zmode]>
                  (<[path := File (strip content) (mode_after path (umask w) d1)]> d1))
          (umask w) (printed w ++ [("  + Added " +:+ path) +:+ NL])).
Proof.
  intros Hdirs Habove Hparent Hself Hzipout Hfile Hzip Hne.
  unfold install.
  assert (Hfirst : (if negb (is_empty (dirname path))
                    then on_disk (makedirs (S (String.length (dirname path))) (dirname path)
                                    (umask w)) w
                    else Ok w) = Ok (World d1 (umask w) (printed w))).
  { destruct (negb (is_empty (dirname path))).
    - apply on_disk_ok, Hdirs.
    - injection Hdirs as <-. destruct w; reflexivity. }
  rewrite Hfirst, bind_ok. clear Hfirst. cbn [umask].
  assert (Hreach : reach d1 path = None) by (apply search_usable, Habove).
  assert (Hread := mode_after_readable d1 (umask w) path Hfile).
  assert (Hwrite : write_file path (strip content) (umask w) d1
                   = Ok (<[path := File (strip content) (kept_mode path (umask w) d1)]> d1)).
  { unfold write_file, open_w, kept_mode. rewrite Hreach.
    unfold file_ok in Hfile.
    destruct (d1 !! path) as [[m|c m|ms m]|]; try discriminate Hfile.
    - apply andb_true_iff in Hfile as [-> _]. reflexivity.
    - apply andb_true_iff in Hfile as [-> _]. reflexivity.
    - rewrite (usable_parent_writable d1 path Hparent). reflexivity. }
  rewrite (on_disk_ok (write_file path (strip content) (umask w))
             (World d1 (umask w) (printed w)) _ Hwrite), bind_ok.
  cbn [umask printed].
  set (m0 := kept_mode path (umask w) d1) in *.
  assert (Hchmod : (if endswith ".sh" path
                    then on_disk (chmod path 493)
                           (World (<[path := File (strip content) m0]> d1) (umask w) (printed w))
                    else Ok (World (<[path := File (strip content) m0]> d1) (umask w) (printed w)))
                   = Ok (World (<[path := File (strip content) (mode_after path (umask w) d1)]> d1)
                           (umask w) (printed w))).
  { unfold mode_after. fold m0. destruct (endswith ".sh" path); [|reflexivity].
    erewrite on_disk_ok; [reflexivity|]. unfold chmod, reach. cbn [disk].
    rewrite search_insert_notin by exact Hself. fold (reach d1 path). rewrite Hreach.
    rewrite lookup_insert_eq, insert_insert_eq. reflexivity. }
  rewrite Hchmod, bind_ok. clear Hchmod.
  erewrite on_disk_ok; [rewrite bind_ok; reflexivity|].
  unfold zip_write, reach. cbn [disk].
  rewrite search_insert_notin by exact Hself. fold (reach d1 path). rewrite Hreach.
  rewrite lookup_insert_eq, lookup_insert_ne, Hzip, Hread by congruence.
  reflexivity.
Qed.

(** *** Running the loop on the seven entries *)

Ltac look :=
  repeat (rewrite lookup_insert_eq || (rewrite lookup_insert_ne by discriminate)).

Ltac known e :=
  let v := eval vm_compute in e in change e with v.

(** A directory may be used, on a disk that is the first disk with
    entries put in. *)
Ltac usable_goal Hcwd Hdirs :=
  cbn [disk umask];
  lazymatch goal with
  | |- usable _ _ = true =>
      repeat (rewrite usable_insert_ne by discriminate);
      first [exact Hcwd | rewrite usable_insert_dir; usable_goal Hcwd Hdirs]
  | |- dir_ok _ _ _ = true =>
      repeat (rewrite dir_ok_insert_ne by discriminate);
      first [apply Hdirs; cbn; tauto | rewrite dir_ok_insert_dir; usable_goal Hcwd Hdirs]
  | |- owner_w (dmode _ _ _) && owner_x (dmode _ _ _) = true =>
      apply dmode_usable; usable_goal Hcwd Hdirs
  end.

(** The other side conditions of one step of the loop. *)
Ltac settle Hcwd Hdirs Hfiles :=
  cbn [disk umask];
  lazymatch goal with
  | |- forallb (usable _) (above ?n ?p) = true =>
      known (above n p); cbn [forallb];
      repeat (apply andb_true_intro; split); [usable_goal Hcwd Hdirs .. | reflexivity]
  | |- usable _ (dirname ?p) = true => known (dirname p); usable_goal Hcwd Hdirs
  | |- ~ In _ (above ?n ?p) =>
      known (above n p); cbn [In]; intros H;
      repeat (destruct H as [H|H]; [discriminate H|]); exact H
  | |- file_ok _ _ _ = true =>
      repeat (rewrite file_ok_insert_ne by discriminate); apply Hfiles; cbn; tauto
  | |- _ !! _ = Some (Zip _ _) => look; reflexivity
  | |- _ <> _ => discriminate
  end.

Ltac nested_dirs parent tail Hcwd Hdirs :=
  lazymatch goal with
  | |- context [dirname ?p] => known (dirname p)
  end;
  cbn [is_empty negb String.length];
  apply (makedirs_nested _ _ parent tail parent);
  [reflexivity | reflexivity | reflexivity | reflexivity | reflexivity
  | discriminate | discriminate | reflexivity | reflexivity
  | usable_goal Hcwd Hdirs | usable_goal Hcwd Hdirs | usable_goal Hcwd Hdirs].

Ltac tidy :=
  cbn [umask printed disk];
  repeat lazymatch goal with
    | |- context [arcname ?p] => known (arcname p)
    end;
  cbn [app];
  repeat (rewrite mode_after_insert_ne by discriminate);
  repeat first [rewrite dmode_insert_ne by discriminate | rewrite dmode_insert_dir].

Ltac install_nested parent tail Hcwd Hdirs Hfiles :=
  erewrite install_written;
  [
  | nested_dirs parent tail Hcwd Hdirs
  | settle Hcwd Hdirs Hfiles | settle Hcwd Hdirs Hfiles | settle Hcwd Hdirs Hfiles
  | settle Hcwd Hdirs Hfiles | settle Hcwd Hdirs Hfiles | settle Hcwd Hdirs Hfiles
  | settle Hcwd Hdirs Hfiles];
  rewrite bind_ok; tidy.

Ltac install_bare Hcwd Hdirs Hfiles :=
  erewrite install_written;
  [
  | lazymatch goal with
    | |- context [dirname ?p] => known (dirname p)
    end; cbn [is_empty negb]; reflexivity
  | settle Hcwd Hdirs Hfiles | settle Hcwd Hdirs Hfiles | settle Hcwd Hdirs Hfiles
  | settle Hcwd Hdirs Hfiles | settle Hcwd Hdirs Hfiles | settle Hcwd Hdirs Hfiles
  | settle Hcwd Hdirs Hfiles];
  rewrite bind_ok; tidy.

Lemma arcname_files : Forall (fun e => arcname (fst e) = fst e) files.
Proof. repeat constructor. Qed.

(** C10.  Run by a user who owns what is on the disk, in a working
    directory that user may search and write, where nothing is in the way
    and no entry the program goes through or writes refuses it,
    [create_council_zip] ends without an error and has, for every entry
    of [files] and in their order: made the directories above the path,
    written at the path the content less the white space at its two ends,
    made the file executable when its name ends in [.sh], and added the
    path to the archive; the archive [council_of_agents.zip] holds exactly
    the seven paths, each once, in that order, with the contents as
    written; a directory, file or archive that was there has kept its mode
    (a script apart), a new one has what the umask leaves it; nothing
    else on the disk has changed. *)
Theorem create_council_zip_installs w0 :
  installable w0 = true ->
  exists w,
    create_council_zip w0 = Ok w
    /\ (forall path content, In (path, content) files ->
          disk w !! path
          = Some (File (strip content) (mode_after path (umask w0) (disk w0)))
          /\ (endswith ".sh" path = true -> mode_after path (umask w0) (disk w0) = 493%N)
          /\ (exists dm, disk w !! dirname path = Some (Dir dm)))
    /\ (forall dir, In dir needed_dirs ->
          disk w !! dir = Some (Dir (dmode (disk w0) (umask w0) dir)))
    /\ disk w !! ZIP
       = Some (Zip (map (fun e => (fst e, strip (snd e))) files)
                 (kept_mode ZIP (umask w0) (disk w0)))
    /\ map fst files
       = [ ".council/prompts/01_test_qa.md";
           ".council/prompts/02_structure_architect.md";
           ".council/prompts/03_naming_librarian.md";
           ".council/prompts/04_domain_warden.md";
           ".council/scripts/ralph.sh";
           ".council/scripts/run_gauntlet.sh";
           "run_review.sh" ]
    /\ NoDup (map fst files)
    /\ map (fun e => String.length (snd e) - String.length (strip (snd e))) files
       = [0; 0; 0; 0; 0; 1; 1]
    /\ printed w
       = printed w0 ++ ["Creating Council of Agents..." +:+ NL]
         ++ map (fun e => ("  + Added " +:+ fst e) +:+ NL) files
         ++ [(NL +:+ "âœ… Success! Created 'council_of_agents.zip' and the '.council' directory.") +:+ NL]
    /\ (forall q, ~ In q (ZIP :: needed_dirs ++ map fst files) ->
          disk w !! q = disk w0 !! q).
Proof.
  destruct w0 as [d0 um pr]. unfold installable. cbn [disk umask printed].
  intros Hinst.
  apply andb_true_iff in Hinst as [Hinst Hzip].
  apply andb_true_iff in Hinst as [Hinst Hfiles].
  apply andb_true_iff in Hinst as [Hcwd Hdirs].
  rewrite forallb_forall in Hdirs. rewrite forallb_forall in Hfiles.
  destruct (usable_dir d0 _ Hcwd) as (cm & Hcm & _).
  unfold create_council_zip.
  erewrite on_disk_ok; [|apply zip_open_ok; cbn [disk print]; assumption].
  rewrite bind_ok. cbn [umask printed disk print]. unfold files at 1. cbn [for_each].
  install_nested ".council" "prompts" Hcwd Hdirs Hfiles.
  install_nested ".council" "prompts" Hcwd Hdirs Hfiles.
  install_nested ".council" "prompts" Hcwd Hdirs Hfiles.
  install_nested ".council" "prompts" Hcwd Hdirs Hfiles.
  install_nested ".council" "scripts" Hcwd Hdirs Hfiles.
  install_nested ".council" "scripts" Hcwd Hdirs Hfiles.
  install_bare Hcwd Hdirs Hfiles.
  rewrite !bind_ok. eexists. split; [reflexivity|].
  cbn [disk print printed umask]. clear Hcwd Hdirs Hfiles Hzip.
  split.
  { intros path content Hin. unfold files in Hin. cbn [In] in Hin.
    repeat (destruct Hin as [Hin|Hin]);
      [injection Hin as <- <-; split; [look; reflexivity|];
       (split; [intros H; first [reflexivity | vm_compute in H; discriminate H]|]);
       lazymatch goal with
       | |- context [dirname ?p] => known (dirname p)
       end; look; eauto ..
      | destruct Hin]. }
  split.
  { intros dir Hin. cbn [In needed_dirs] in Hin.
    repeat (destruct Hin as [Hin|Hin]); [subst dir; look; reflexivity .. | destruct Hin]. }
  split; [look; reflexivity|].
  split; [reflexivity|].
  split; [refine (bool_decide_unpack _ _); vm_compute; exact I|].
  split; [vm_compute; reflexivity|].
  split; [rewrite <- !app_assoc; reflexivity|].
  intros q Hq. cbn [In needed_dirs app map fst files] in Hq.
  rewrite !lookup_insert_ne; [reflexivity | intros <-; apply Hq; tauto ..].
Qed.

Lemma create_council_zip_installs_witness :
  exists w,
    create_council_zip Examples.fresh = Ok w
    /\ (forall path content, In (path, content) files ->
          disk w !! path
          = Some (File (strip content) (mode_after path 18 Examples.home))
          /\ (endswith ".sh" path = true -> mode_after path 18 Examples.home = 493%N)
          /\ (exists dm, disk w !! dirname path = Some (Dir dm)))
    /\ (forall dir, In dir needed_dirs ->
          disk w !! dir = Some (Dir (dmode Examples.home 18 dir)))
    /\ disk w !! ZIP
       = Some (Zip (map (fun e => (fst e, strip (snd e))) files)
                 (kept_mode ZIP 18 Examples.home))
    /\ map fst files
       = [ ".council/prompts/01_test_qa.md";
           ".council/prompts/02_structure_architect.md";
           ".council/prompts/03_naming_librarian.md";
           ".council/prompts/04_domain_warden.md";
           ".council/scripts/ralph.sh";
           ".council/scripts/run_gauntlet.sh";
           "run_review.sh" ]
    /\ NoDup (map fst files)
    /\ map (fun e => String.length (snd e) - String.length (strip (snd e))) files
       = [0; 0; 0; 0; 0; 1; 1]
    /\ printed w
       = [] ++ ["Creating Council of Agents..." +:+ NL]
         ++ map (fun e => ("  + Added " +:+ fst e) +:+ NL) files
         ++ [(NL +:+ "âœ… Success! Created 'council_of_agents.zip' and the '.council' directory.") +:+ NL]
    /\ (forall q, ~ In q (ZIP :: needed_dirs ++ map fst files) ->
          disk w !! q = Examples.home !! q).
Proof.
  apply (create_council_zip_installs Examples.fresh). vm_compute. reflexivity.
Defined.

End InstallerFacts.

(** ** The scripts as shipped: the lines the models are read from *)

Module ShippedFacts.
Import Text Installer.

Lemma ralph_sh_as_shipped :
  has_line ("MAX_ITERATIONS=" +:+ pretty Ralph.MAX_ITERATIONS) ralph_sh_text = true
  /\ has_line ("COMPLETION_MARKER=" +:+ dq +:+ Ralph.COMPLETION_MARKER +:+ dq)
       ralph_sh_text = true
  /\ has_line "for ((i=1; i<=MAX_ITERATIONS; i++)); do" ralph_sh_text = true
  /\ has_line ("    output=$(claude -p " +:+ dq +:+ "$PROMPT_CONTENT" +:+ dq
               +:+ " --print 2>&1)") ralph_sh_text = true
  /\ has_line ("    if echo " +:+ dq +:+ "$output" +:+ dq +:+ " | grep -q "
               +:+ dq +:+ "$COMPLETION_MARKER" +:+ dq +:+ "; then") ralph_sh_text = true
  /\ has_line "        exit 0" ralph_sh_text = true
  /\ has_line "    sleep 2" ralph_sh_text = true
  /\ has_line "exit 1" ralph_sh_text = true.
Proof. vm_compute. repeat split. Qed.

Lemma run_gauntlet_sh_as_shipped :
  has_line ("TARGET_DIR=" +:+ dq +:+ "${1:-.}" +:+ dq) run_gauntlet_sh_text = true
  /\ has_line ("REPORT_FILE=" +:+ dq +:+ Gauntlet.REPORT_FILE +:+ dq)
       run_gauntlet_sh_text = true
  /\ has_line ("PROMPT_DIR=" +:+ dq +:+ Gauntlet.PROMPT_DIR +:+ dq)
       run_gauntlet_sh_text = true
  /\ forallb (fun r =>
       has_line ("run_agent " +:+ dq +:+ Gauntlet.name r +:+ dq +:+ " " +:+ dq
                 +:+ "$PROMPT_DIR"
                 +:+ Review.drop_chars (String.length Gauntlet.PROMPT_DIR)
                       (Gauntlet.prompt_path r)
                 +:+ dq +:+ " &") run_gauntlet_sh_text) Gauntlet.reviewers = true
  /\ has_line ("    local result=$(claude -p " +:+ dq +:+ "$full_prompt" +:+ dq
               +:+ " --print 2>&1)") run_gauntlet_sh_text = true
  /\ has_line ("    echo " +:+ dq +:+ Gauntlet.heading (Gauntlet.Reviewer "$name" EmptyString)
               +:+ dq +:+ " >> $REPORT_FILE") run_gauntlet_sh_text = true
  /\ has_line ("    echo " +:+ dq +:+ "$result" +:+ dq +:+ " >> $REPORT_FILE")
       run_gauntlet_sh_text = true
  /\ has_line ("    echo " +:+ dq +:+ Gauntlet.rule +:+ dq +:+ " >> $REPORT_FILE")
       run_gauntlet_sh_text = true
  /\ has_line "wait" run_gauntlet_sh_text = true.
Proof. vm_compute. repeat split. Qed.

Lemma run_review_sh_as_shipped :
  has_line ("./.council/scripts/run_gauntlet.sh " +:+ dq +:+ "./src" +:+ dq)
    run_review_sh_text = true
  /\ has_line "if [[ ! $REPLY =~ ^[Yy]$ ]]; then" run_review_sh_text = true
  /\ has_line "    exit 1" run_review_sh_text = true
  /\ has_line "REPORT_CONTENT=$(cat COUNCIL_REPORT.md)" run_review_sh_text = true
  /\ has_line ("./.council/scripts/ralph.sh " +:+ dq +:+ "$FIXER_PROMPT" +:+ dq +:+ " ")
       run_review_sh_text = true
  /\ contains (dq +:+ Review.FIXER_PROMPT "$REPORT_CONTENT" +:+ dq +:+ NL)
       run_review_sh_text = true.
Proof. vm_compute. repeat split. Qed.

End ShippedFacts.

(** ** ralph.sh: the whole of a run *)

Module RalphRuns.
Import Text Bash Ralph TextFacts BashFacts RalphFacts.

Section Loop.
Variable claude : string -> nat -> outcome.
Variable prompt : string.

Local Abbreviation out := (output_at claude prompt).
Local Abbreviation loop := (for_loop claude prompt).

(** What one iteration prints: its banner and the engine's output. *)
Local Abbreviation shown := (fun i => [echo ("--- Iteration " +:+ pretty i +:+ " ---"); echo (out i)]).

Local Abbreviation last_words :=
  (fun t => match t with
            | Completed => echo "âœ… Fixes applied and verified."
            | Exhausted => echo "âŒ Max iterations reached."
            end).

(** The loop from iteration [i] on: it ends after some [n] more calls,
    those of [i], [i+1], ...; each is shown on the terminal; it sleeps
    after every call that did not show the marker. *)
Lemma for_loop_outcome max fuel i w :
  i <= S max -> S max - i < fuel ->
  exists t w' n,
    loop max fuel i w = Some (t, w')
    /\ i + n <= S max
    /\ calls w' = calls w ++ calls_from prompt i n
    /\ terminal w' = terminal w ++ flat_map shown (seq i n) ++ [last_words t]
    /\ (forall j, i <= j -> S j < i + n -> ~ occurs_in COMPLETION_MARKER (out j))
    /\ match t with
       | Completed =>
           1 <= n /\ occurs_in COMPLETION_MARKER (out (i + n - 1))
           /\ slept w' = slept w + 2 * (n - 1)
       | Exhausted =>
           i + n = S max
           /\ (forall j, i <= j <= max -> ~ occurs_in COMPLETION_MARKER (out j))
           /\ slept w' = slept w + 2 * n
       end.
Proof.
  revert i w. induction fuel as [|fuel IH]; intros i w Hi Hfuel; [lia|].
  cbn [for_loop]. destruct (Nat.leb_spec i max) as [Hle|Hgt].
  - destruct (marker_found (out i)) eqn:Hm.
    + exists Completed, (say "âœ… Fixes applied and verified."
                (say (out i) (invoked prompt i
                   (say ("--- Iteration " +:+ pretty i +:+ " ---") w)))), 1.
      split; [reflexivity|]. split; [lia|]. split; [reflexivity|].
      split; [cbn; rewrite <- !app_assoc; reflexivity|].
      split; [intros j Hj1 Hj2; lia|].
      split; [lia|]. split; [|cbn; lia].
      replace (i + 1 - 1) with i by lia. apply marker_found_true, Hm.
    + destruct (IH (S i)
                  (sleep 2 (say (out i) (invoked prompt i
                     (say ("--- Iteration " +:+ pretty i +:+ " ---") w)))))
        as (t & w' & n & Hrun & Hn & Hcalls & Hterm & Hbefore & Hend); [lia | lia |].
      exists t, w', (S n). split; [exact Hrun|]. split; [lia|].
      split; [rewrite Hcalls; cbn [calls sleep say invoked];
              rewrite <- app_assoc; reflexivity|].
      split; [rewrite Hterm; cbn [terminal sleep say invoked seq flat_map];
              rewrite <- !app_assoc; reflexivity|].
      split.
      { intros j Hj1 Hj2. destruct (decide (j = i)) as [->|Hne].
        - apply marker_found_false, Hm.
        - apply Hbefore; lia. }
      destruct t.
      * destruct Hend as (H1 & Hocc & Hslept). split; [lia|]. split.
        -- replace (i + S n - 1) with (S i + n - 1) by lia. exact Hocc.
        -- rewrite Hslept. cbn [slept sleep say invoked]. lia.
      * destruct Hend as (H1 & Hnone & Hslept). split; [lia|]. split.
        -- intros j Hj. destruct (decide (j = i)) as [->|Hne].
           ++ apply marker_found_false, Hm.
           ++ apply Hnone. lia.
        -- rewrite Hslept. cbn [slept sleep say invoked]. lia.
  - exists Exhausted, (say "âŒ Max iterations reached." w), 0.
    split; [reflexivity|]. split; [lia|].
    split; [cbn; rewrite app_nil_r; reflexivity|].
    split; [reflexivity|].
    split; [intros j Hj1 Hj2; lia|].
    split; [lia|]. split; [intros j Hj; lia | cbn; lia].
Qed.

End Loop.

(** X1.  Whatever the engine answers and whatever the bound (10 in the
    script), the loop ends after [n] calls, [n] at most the bound, made for
    the iterations 1 to [n] in turn and all with the prompt the script was
    given.  It ends Completed only if the output of the last call has the
    marker and no output before has it; it ends Exhausted only if [n] is
    the bound and no output has the marker. *)
Theorem ralph_outcome claude prompt max :
  exists t w n,
    run_with claude prompt max = Some (t, w)
    /\ n <= max
    /\ calls w = map (fun i => (prompt, i)) (seq 1 n)
    /\ (forall j, 1 <= j < n -> ~ occurs_in COMPLETION_MARKER (output_at claude prompt j))
    /\ (t = Completed ->
        1 <= n /\ occurs_in COMPLETION_MARKER (output_at claude prompt n))
    /\ (t = Exhausted ->
        n = max
        /\ forall j, 1 <= j <= max -> ~ occurs_in COMPLETION_MARKER (output_at claude prompt j)).
Proof.
  destruct (for_loop_outcome claude prompt max (S max) 1 (start) ltac:(lia) ltac:(lia))
    as (t & w & n & Hrun & Hn & Hcalls & _ & Hbefore & Hend).
  exists t, w, n. split; [exact Hrun|]. split; [lia|].
  split; [exact Hcalls|]. split; [intros j Hj; apply Hbefore; lia|].
  destruct t; split; try discriminate; intros _.
  - destruct Hend as (H1 & Hocc & _). split; [exact H1|].
    replace (1 + n - 1) with n in Hocc by lia. exact Hocc.
  - destruct Hend as (H1 & Hnone & _). split; [lia | exact Hnone].
Qed.

(** X2.  The script sleeps two seconds after every call whose output has
    no marker, the last call of an exhausted run included: a run that ends
    Completed after [n] calls has slept [2 * (n - 1)] seconds, a run that
    ends Exhausted [2 * n]. *)
Theorem ralph_sleeps claude prompt max :
  exists t w,
    run_with claude prompt max = Some (t, w)
    /\ slept w = 2 * (length (calls w) - match t with Completed => 1 | Exhausted => 0 end)
    /\ (t = Exhausted -> slept w = 2 * max).
Proof.
  destruct (for_loop_outcome claude prompt max (S max) 1 (start) ltac:(lia) ltac:(lia))
    as (t & w & n & Hrun & Hn & Hcalls & _ & _ & Hend).
  exists t, w. split; [exact Hrun|].
  assert (Hlen : length (calls w) = n).
  { rewrite Hcalls. cbn [calls start say]. rewrite app_nil_l. apply calls_from_length. }
  rewrite Hlen. destruct t.
  - destruct Hend as (_ & _ & Hslept). split; [exact Hslept | discriminate].
  - destruct Hend as (Hmax & _ & Hslept). rewrite Hslept.
    split; [cbn [slept start say]; lia|]. intros _. cbn [slept start say]. lia.
Qed.

(** X3.  Every output of the engine is shown: the terminal holds the
    opening line, then for each call in turn the banner of its iteration
    and the output as [echo] prints it, then the closing line of the way
    the loop ended. *)
Theorem ralph_transcript claude prompt max :
  exists t w,
    run_with claude prompt max = Some (t, w)
    /\ terminal w
       = terminal start
         ++ flat_map (fun i => [echo ("--- Iteration " +:+ pretty i +:+ " ---");
                                echo (output_at claude prompt i)])
              (seq 1 (length (calls w)))
         ++ [match t with
             | Completed => echo "âœ… Fixes applied and verified."
             | Exhausted => echo "âŒ Max iterations reached."
             end].
Proof.
  destruct (for_loop_outcome claude prompt max (S max) 1 (start) ltac:(lia) ltac:(lia))
    as (t & w & n & Hrun & Hn & Hcalls & Hterm & _ & _).
  exists t, w. split; [exact Hrun|].
  assert (Hlen : length (calls w) = n).
  { rewrite Hcalls. cbn [calls start say]. rewrite app_nil_l. apply calls_from_length. }
  rewrite Hlen. exact Hterm.
Qed.

End RalphRuns.

(** ** run_gauntlet.sh: the report under any interleaving of the jobs *)

Module GauntletRuns.
Import Text Bash Disk Gauntlet TextFacts BashFacts GauntletFacts.

Lemma appends_of_cons_length i j a l :
  who a = Job i ->
  length (appends_of j (a :: l))
  = (if decide (i = j) then 1 else 0) + length (appends_of j l).
Proof.
  intros Hi. unfold appends_of. destruct (decide (i = j)) as [->|Hne].
  - rewrite filter_cons_True by exact Hi. reflexivity.
  - rewrite filter_cons_False by (rewrite Hi; congruence). reflexivity.
Qed.

Lemma sum_list_cons x l : sum_list (x :: l) = x + sum_list l.
Proof. reflexivity. Qed.

Lemma sum_one_more i (f : nat -> nat) js :
  NoDup js ->
  sum_list (map (fun j => (if decide (i = j) then 1 else 0) + f j) js)
  = (if decide (i ∈ js) then 1 else 0) + sum_list (map f js).
Proof.
  induction 1 as [|j js Hj _ IH].
  - cbn. destruct (decide (i ∈ [])) as [H|_]; [inversion H | reflexivity].
  - rewrite !map_cons, !sum_list_cons, IH.
    destruct (decide (i = j)) as [->|Hne].
    + destruct (decide (j ∈ js)); [contradiction|].
      destruct (decide (j ∈ j :: js)) as [_|Hn]; [lia | exfalso; apply Hn; left].
    + destruct (decide (i ∈ js)) as [Hin|Hout].
      * destruct (decide (i ∈ j :: js)) as [_|Hn]; [lia | exfalso; apply Hn; right; exact Hin].
      * destruct (decide (i ∈ j :: js)) as [Hin|_]; [|lia].
        apply elem_of_cons in Hin as [->|Hin]; contradiction.
Qed.

(** Each append of [l] is counted once, under the job that made it. *)
Lemma count_by_job (n : nat) (l : list append) :
  Forall (fun a => exists j, who a = Job j /\ j < n) l ->
  length l = sum_list (map (fun j => length (appends_of j l)) (seq 0 n)).
Proof.
  induction 1 as [|a l (i & Hi & Hlt) _ IH].
  - cbn. induction (seq 0 n) as [|j js IHjs]; [reflexivity | exact IHjs].
  - cbn [length].
    rewrite (map_ext _ _ (fun j => appends_of_cons_length i j a l Hi)).
    rewrite sum_one_more by apply NoDup_seq.
    destruct (decide (i ∈ seq 0 n)) as [_|Hn]; [lia|].
    exfalso. apply Hn, elem_of_seq. lia.
Qed.

Lemma sum_constant {A} (f : A -> nat) c (l : list A) :
  (forall x, x ∈ l -> f x = c) -> sum_list (map f l) = c * length l.
Proof.
  induction l as [|x l IH]; intros H; [cbn; lia|].
  rewrite map_cons, sum_list_cons. cbn [length]. rewrite H by left.
  rewrite IH by (intros y Hy; apply H; right; exact Hy). lia.
Qed.

Section Interleaved.
Variable disk : gmap string node.
Variable gather : string -> string.
Variable date : string.
Variable claude : string -> nat -> outcome.
Variable rs : list reviewer.
Variable args : list string.

Local Abbreviation step := (Gauntlet.step disk gather claude rs args).
Local Abbreviation result_of := (Gauntlet.result_of disk gather claude args).
Local Abbreviation launched := (Gauntlet.launched date rs args).
Local Abbreviation preamble := (Gauntlet.preamble date args).
Local Abbreviation headed := (Gauntlet.headed date rs args).


Lemma headed_step w j : headed w -> headed (step w j).
Proof.
  intros (rest & Hrep & Hall). unfold Gauntlet.step.
  destruct (rs !! j) as [r|] eqn:Hr; [|exists rest; split; assumption].
  destruct (jobs w !! j) as [s|]; [|exists rest; split; assumption].
  assert (Hj : j < length rs) by (eapply lookup_lt_Some; eauto).
  destruct (pc s) as [|[|[|[|p]]]];
    [exists rest; split; assumption
    | | | | exists rest; split; assumption].
  all: eexists (rest ++ [_]); cbn [report set_job append_line]; rewrite Hrep;
    split; [rewrite <- app_assoc; reflexivity|];
    apply Forall_app; split; [exact Hall|];
    constructor; [exists j; split; [reflexivity | exact Hj] | constructor].
Qed.

Lemma headed_run sched w : headed w -> headed (fold_left step sched w).
Proof.
  revert w. induction sched as [|j sched IH]; intros w Hw; [exact Hw|].
  cbn [fold_left]. apply IH, headed_step, Hw.
Qed.


End Interleaved.


End GauntletRuns.

(** ** The installer: where it is refused *)

Module InstallerRefusals.
Import Text Disk Installer InstallerFacts.

Lemma bind_raise {A B} e (k : A -> result B) : (Raise e ≫= k) = Raise e.
Proof. reflexivity. Qed.

Lemma on_disk_raise f w e : f (disk w) = Raise e -> on_disk f w = Raise e.
Proof. intros H. unfold on_disk. rewrite H. reflexivity. Qed.

Lemma dirs_made path w d1 :
  (if negb (is_empty (dirname path))
   then makedirs (S (String.length (dirname path))) (dirname path) (umask w) (disk w)
   else Ok (disk w)) = Ok d1 ->
  (if negb (is_empty (dirname path))
   then on_disk (makedirs (S (String.length (dirname path))) (dirname path) (umask w)) w
   else Ok w) = Ok (World d1 (umask w) (printed w)).
Proof.
  intros Hdirs. destruct (negb (is_empty (dirname path))).
  - apply on_disk_ok, Hdirs.
  - injection Hdirs as <-. destruct w; reflexivity.
Qed.

(** The entry of a file whose directories cannot be made. *)
Lemma install_dirs_refused path content w e :
  is_empty (dirname path) = false ->
  makedirs (S (String.length (dirname path))) (dirname path) (umask w) (disk w) = Raise e ->
  install (path, content) w = Raise e.
Proof.
  intros Hdir Hmake. unfold install. rewrite Hdir. cbn [negb].
  rewrite (on_disk_raise _ _ e Hmake). reflexivity.
Qed.

(** The entry of a file that is there and may not be written. *)
Lemma install_write_refused path content w d1 old mode :
  (if negb (is_empty (dirname path))
   then makedirs (S (String.length (dirname path))) (dirname path) (umask w) (disk w)
   else Ok (disk w)) = Ok d1 ->
  forallb (usable d1) (above (String.length path) path) = true ->
  d1 !! path = Some (File old mode) -> owner_w mode = false ->
  install (path, content) w = Raise PermissionError.
Proof.
  intros Hdirs Habove Hfile Hmode. unfold install.
  rewrite (dirs_made path w d1 Hdirs), bind_ok.
  rewrite (on_disk_raise _ _ PermissionError); [reflexivity|].
  cbn [disk umask]. unfold write_file, open_w.
  rewrite (search_usable d1 _ Habove : reach d1 path = None), Hfile, Hmode. reflexivity.
Qed.

(** The entry of a new file, no script, that the umask leaves unreadable. *)
Lemma install_read_refused path content w d1 members zmode :
  (if negb (is_empty (dirname path))
   then makedirs (S (String.length (dirname path))) (dirname path) (umask w) (disk w)
   else Ok (disk w)) = Ok d1 ->
  forallb (usable d1) (above (String.length path) path) = true ->
  usable d1 (dirname path) = true ->
  ~ In path (above (String.length path) path) ->
  d1 !! path = None -> endswith ".sh" path = false ->
  owner_r (N.ldiff 438 (umask w)) = false ->
  d1 !! ZIP = Some (Zip members zmode) -> path <> ZIP ->
  install (path, content) w = Raise PermissionError.
Proof.
  intros Hdirs Habove Hparent Hself Hnone Hsh Hmode Hzip Hne. unfold install.
  rewrite (dirs_made path w d1 Hdirs), bind_ok.
  assert (Hreach : reach d1 path = None) by (apply search_usable, Habove).
  erewrite on_disk_ok; [rewrite bind_ok|].
  2: { cbn [disk umask]. unfold write_file, open_w.
       rewrite Hreach, Hnone, (usable_parent_writable d1 path Hparent). reflexivity. }
  rewrite Hsh, bind_ok.
  rewrite (on_disk_raise _ _ PermissionError); [reflexivity|].
  cbn [disk]. unfold zip_write, reach.
  rewrite search_insert_notin by exact Hself. fold (reach d1 path). rewrite Hreach.
  rewrite lookup_insert_eq, lookup_insert_ne, Hzip, Hmode by congruence. reflexivity.
Qed.

(** [makedirs] two levels down where both are to be made and the umask
    leaves a new directory that cannot be searched or not be written:
    the upper one is made, the lower one is refused. *)
Lemma makedirs_nested_locked fuel dir parent tail tail' um (d : gmap string node) :
  path_split dir = (parent, tail) -> path_split parent = (EmptyString, tail') ->
  is_empty parent = false -> is_empty tail = false -> is_empty tail' = false ->
  tail <> "." -> dir <> parent ->
  above (String.length parent) parent = [EmptyString] ->
  above (String.length dir) dir = [EmptyString; parent] ->
  usable d EmptyString = true ->
  d !! parent = None -> d !! dir = None ->
  owner_w (N.ldiff 511 um) && owner_x (N.ldiff 511 um) = false ->
  makedirs (S (S fuel)) dir um d = Raise PermissionError.
Proof.
  intros Hdir Hparent Hp Ht Ht' Hdot Hne Hup Hud Hcwd Hnp Hnd Hbad.
  assert (Hne' : parent <> EmptyString) by (intros ->; discriminate Hp).
  assert (Hdp : dirname parent = EmptyString) by (unfold dirname; rewrite Hparent; reflexivity).
  assert (Hdd : dirname dir = parent) by (unfold dirname; rewrite Hdir; reflexivity).
  assert (Hrp : reach d parent = None).
  { unfold reach. rewrite Hup. apply search_usable. cbn [forallb]. rewrite Hcwd. reflexivity. }
  destruct (usable_dir d _ Hcwd) as (cm & Hcm & Hcw & Hcx).
  cbn [makedirs]. rewrite Hdir, Ht, Hp, Ht. cbn [negb andb].
  unfold path_exists at 1. rewrite Hrp, Hnp.
  rewrite bool_decide_eq_false_2 by (intros [x Hx]; discriminate Hx). cbn [negb].
  rewrite Hparent, Ht'. cbn [negb andb is_empty].
  assert (Hmp : mkdir_exist_ok parent um d = Ok (<[parent := Dir (N.ldiff 511 um)]> d)).
  { unfold mkdir_exist_ok, mkdir, parent_writable. rewrite Hrp, Hnp, Hdp, Hcm, Hcw.
    reflexivity. }
  rewrite Hmp. rewrite bool_decide_eq_false_2 by exact Hdot.
  unfold mkdir_exist_ok, mkdir, isdir, reach, parent_writable. rewrite Hud, Hdd.
  cbn [search]. rewrite lookup_insert_ne by congruence. rewrite Hcm, Hcx.
  rewrite lookup_insert_eq.
  destruct (owner_x (N.ldiff 511 um)); [|reflexivity].
  rewrite lookup_insert_ne by congruence. rewrite Hnd.
  rewrite andb_true_r in Hbad. rewrite Hbad. reflexivity.
Qed.







End InstallerRefusals.
